(** * tornet: the KAD lookup of [src/kad.cpp]

    A shallow embedding of [tn::kad_search] (constructor, [start], [wait],
    [search_thread]) and the properties of its search queue, its bounded
    result set and its worker loop.

    Conventions.
    - [fc::sha1] is a 160-bit hash compared bytewise from the most significant
      byte; it is embedded as the binary natural number it denotes, so
      [operator^] is [N.lxor] and [operator<] is [N.lt].
    - [std::map<K,V>] is embedded as the list of its entries in iteration
      order (strictly ascending keys): [begin()] is the head, [--end()] the
      last entry.
    - The worker runs as a coroutine; it is cut at its blocking calls
      ([connect_to], [filter], [remote_nodes_near]) into segments, each of
      which runs without interruption. *)

From Stdlib Require Import NArith List Bool Arith Lia Sorted.
Import ListNotations.

Local Open Scope N_scope.

(** ** Identifiers and endpoints *)

Definition sha1 : Type := N.
Definition sha1_bits : N := 160.
Definition endpoint : Type := N.

(** [operator^] on hashes, the XOR distance. *)
Definition distance (a b : sha1) : sha1 := N.lxor a b.

(** The element type of [find_nodes_near] and [remote_nodes_near]
    (fields [id] and [ep] in the source). *)
Record host : Type := Host { id : sha1; ep : endpoint }.

(** ** [std::map] keyed by [fc::sha1] *)

Module StdMap.
Section WithValue.
Context {V : Type}.

Definition t : Type := list (sha1 * V).

Definition size (m : t) : nat := length m.

(** [m[k] = v] *)
Fixpoint set (k : sha1) (v : V) (m : t) : t :=
  match m with
  | [] => [(k, v)]
  | (k', v') :: m' =>
      if k <? k' then (k, v) :: m
      else if k =? k' then (k, v) :: m'
      else (k', v') :: set k v m'
  end.

(** [m.find(k)], [None] standing for [m.end()] *)
Fixpoint find (k : sha1) (m : t) : option V :=
  match m with
  | [] => None
  | (k', v') :: m' => if k =? k' then Some v' else find k m'
  end.

(** [m.begin()] *)
Definition begin (m : t) : option (sha1 * V) := hd_error m.

(** [m.erase(m.begin())] *)
Definition erase_begin (m : t) : t := tl m.

(** [--m.end()]; the decrement is undefined on an empty map, which is
    [None] here. *)
Fixpoint back (m : t) : option (sha1 * V) :=
  match m with
  | [] => None
  | [e] => Some e
  | _ :: m' => back m'
  end.

(** [m.erase(--m.end())] *)
Definition erase_back (m : t) : t := removelast m.

(** The representation invariant of the container: keys strictly ascend. *)
Definition ordered (m : t) : Prop := StronglySorted N.lt (map fst m).

End WithValue.
Arguments t : clear implicits.
End StdMap.

(** ** The search object *)

(** Modelled from the spec: the enumeration of [m_cur_status] is declared in
    [tornet/kad.hpp], which is not among the sources.  [kad.cpp] names
    [idle], [searching] and [done]; the fourth state is the cancelled one of
    the data model ("idle, searching, then done or cancelled"), spelt as in
    the comment above [search_thread]. *)
Inductive status : Type := idle | searching | done | canceled.

Definition status_eqb (a b : status) : bool :=
  match a, b with
  | idle, idle | searching, searching | done, done | canceled, canceled => true
  | _, _ => false
  end.

Record kad_search : Type := KadSearch {
  m_n : nat;
  m_p : nat;
  m_target : sha1;
  m_target_dist : sha1;
  m_search_queue : StdMap.t endpoint;
  m_current_results : StdMap.t sha1;
  m_cur_status : status
}.

Definition with_queue (q : StdMap.t endpoint) (s : kad_search) : kad_search :=
  KadSearch (m_n s) (m_p s) (m_target s) (m_target_dist s) q
            (m_current_results s) (m_cur_status s).

Definition with_results (r : StdMap.t sha1) (s : kad_search) : kad_search :=
  KadSearch (m_n s) (m_p s) (m_target s) (m_target_dist s) (m_search_queue s)
            r (m_cur_status s).

Definition with_status (st : status) (s : kad_search) : kad_search :=
  KadSearch (m_n s) (m_p s) (m_target s) (m_target_dist s) (m_search_queue s)
            (m_current_results s) st.


(** ** Outcomes

    Decrementing [end()] of an empty [std::map] is undefined behaviour; a
    segment that would do so yields [Undefined]. *)

Inductive outcome (A : Type) : Type :=
| Ok (a : A)
| Undefined.
Arguments Ok {A} a.
Arguments Undefined {A}.

Definition bind {A B : Type} (o : outcome A) (k : A -> outcome B) : outcome B :=
  match o with
  | Ok a => k a
  | Undefined => Undefined
  end.

Notation "x <- o ;; k" := (bind o (fun x => k))
  (at level 61, o at next level, right associativity).

(** ** The pieces of [search_thread] *)

(** Lines 67-70: the loop test and the removal of [m_search_queue.begin()].
    [None] when the loop test fails.  The source also computes
    [nid = begin()->first ^ m_target], which is returned here although the
    source never reads it again. *)
Definition take_next (s : kad_search) : option (sha1 * endpoint * kad_search) :=
  match StdMap.begin (m_search_queue s) with
  | Some (key, e) =>
      if status_eqb (m_cur_status s) searching then
        let nid := distance key (m_target s) in
        Some (nid, e, with_queue (StdMap.erase_begin (m_search_queue s)) s)
      else None
  | None => None
  end.

(** Lines 79-82: [m_current_results[m_target^rtn] = rtn] and the eviction of
    the last entry once the size exceeds [m_n]. *)
Definition admit_result (target : sha1) (n : nat) (rtn : sha1)
    (r : StdMap.t sha1) : StdMap.t sha1 :=
  let r' := StdMap.set (distance target rtn) rtn r in
  if Nat.ltb n (StdMap.size r') then StdMap.erase_back r' else r'.

Definition admit_rtn (rtn : sha1) (s : kad_search) : kad_search :=
  with_results (admit_result (m_target s) (m_n s) rtn (m_current_results s)) s.

(** Lines 100-104: the optional limit handed to the remote node. *)
Definition query_limit (s : kad_search) : outcome (option sha1) :=
  if Nat.leb (m_n s) (StdMap.size (m_current_results s))
     && negb (Nat.eqb (m_n s) 0)
  then match StdMap.back (m_current_results s) with
       | Some (worst, _) => Ok (Some worst)
       | None => Undefined
       end
  else Ok None.

(** Lines 117-129: the treatment of one entry [rri] of the remote answer. *)
Definition offer (rri : host) (s : kad_search) : outcome kad_search :=
  match StdMap.find (id rri) (m_current_results s) with
  | Some _ => Ok s
  | None =>
      if Nat.ltb (StdMap.size (m_current_results s)) (m_n s) then
        Ok (with_queue (StdMap.set (id rri) (ep rri) (m_search_queue s)) s)
      else
        match StdMap.back (m_current_results s) with
        | Some (ritr_first, _) =>
            if id rri <? ritr_first then
              Ok (with_queue (StdMap.set (id rri) (ep rri) (m_search_queue s)) s)
            else Ok s
        | None => Undefined
        end
  end.

(** Lines 114-131: the loop over the remote answer. *)
Fixpoint merge (rr : list host) (s : kad_search) : outcome kad_search :=
  match rr with
  | [] => Ok s
  | rri :: rr' => s' <- offer rri s ;; merge rr' s'
  end.

(** ** The worker as a coroutine *)

(** Where a worker stands: not yet run, suspended in one of the three calls
    that may block (with the arguments of the call), or returned. *)
Inductive worker : Type :=
| Spawned
| Connecting (e : endpoint)
| Filtering (rtn : sha1)
| Querying (rtn target : sha1) (n : nat) (limit : option sha1)
| Returned.

(** What resumes a suspended worker: the value its call returned, or an
    exception ([Threw]), which the [catch (...)] of line 133 absorbs.  The
    value [filter] returns is dropped at line 77, so [filter] can only reject
    an identifier by throwing. *)
Inductive reply : Type :=
| Run
| Resolved (rtn : sha1)
| Accepted
| Neighbours (rr : list host)
| Threw.

(** Line 67 to the call of line 73. *)
Definition loop_head (s : kad_search) : kad_search * worker :=
  match take_next s with
  | Some (_, e, s') => (s', Connecting e)
  | None => (s, Returned)
  end.

(** Line 73 returned: lines 74-77, up to the call of [filter]. *)
Definition after_connect (s : kad_search) (r : option sha1) : kad_search * worker :=
  match r with
  | Some rtn => (s, Filtering rtn)
  | None => loop_head s
  end.

(** Line 77 returned: lines 78-113, up to the call of [remote_nodes_near]. *)
Definition after_filter (s : kad_search) (rtn : sha1) (accepted : bool)
    : outcome (kad_search * worker) :=
  if accepted then
    let s1 := admit_rtn rtn s in
    let s2 := if rtn =? m_target s1 then with_status done s1 else s1 in
    if status_eqb (m_cur_status s2) done then Ok (s2, Returned)
    else
      limit <- query_limit s2 ;;
      Ok (s2, Querying rtn (m_target s2) (m_n s2) limit)
  else Ok (loop_head s).

(** Line 113 returned: lines 114-136 and back to the loop test. *)
Definition after_query (s : kad_search) (r : option (list host))
    : outcome (kad_search * worker) :=
  match r with
  | Some rr => s' <- merge rr s ;; Ok (loop_head s')
  | None => Ok (loop_head s)
  end.

(** One uninterrupted segment of a worker.  A reply that does not answer the
    pending call leaves everything as it is. *)
Definition resume (s : kad_search) (w : worker) (r : reply)
    : outcome (kad_search * worker) :=
  match w, r with
  | Spawned, Run => Ok (loop_head s)
  | Connecting _, Resolved rtn => Ok (after_connect s (Some rtn))
  | Connecting _, Threw => Ok (after_connect s None)
  | Filtering rtn, Accepted => after_filter s rtn true
  | Filtering rtn, Threw => after_filter s rtn false
  | Querying _ _ _ _, Neighbours rr => after_query s (Some rr)
  | Querying _ _ _ _, Threw => after_query s None
  | _, _ => Ok (s, w)
  end.



(** ** The coordinator: [start], the pool of workers, [wait] *)

(** The whole search object: the fields the workers share, and [m_pending],
    the vector of the futures of its worker tasks, each future being what
    its task is doing. *)
Record system : Type := System {
  shared : kad_search;
  m_pending : list worker
}.

(** [kad_search::kad_search(local_node, target, n, p)]: the containers,
    [m_pending] among them, start empty. *)
Definition new_search (local_id target : sha1) (n p : nat) : system :=
  System (KadSearch n p target (distance local_id target) [] [] idle) [].

(** Lines 29-32: the seeding loop over [find_nodes_near]'s answer. *)
Fixpoint seed (nn : list host) (q : StdMap.t endpoint) : StdMap.t endpoint :=
  match nn with
  | [] => q
  | i :: nn' => seed nn' (StdMap.set (id i) (ep i) q)
  end.

(** [kad_search::start()], with [nn] the answer of
    [m_node->find_nodes_near(m_target, m_n)].  Lines 34-38 push [m_p] new
    futures onto [m_pending], which nothing clears. *)
Definition start (nn : list host) (this : system) : system :=
  let s := shared this in
  let s1 := with_status searching (with_results [] s) in
  let s2 := with_queue (seed nn (m_search_queue s1)) s1 in
  System s2 (m_pending this ++ repeat Spawned (m_p s)).

Fixpoint set_worker (i : nat) (w : worker) (ws : list worker) : list worker :=
  match ws, i with
  | [], _ => []
  | _ :: ws', O => w :: ws'
  | w0 :: ws', S i' => w0 :: set_worker i' w ws'
  end.

(** The scheduler resumes worker [i] with reply [r]. *)
Definition schedule (sys : system) (i : nat) (r : reply) : outcome system :=
  match nth_error (m_pending sys) i with
  | Some w =>
      sw <- resume (shared sys) w r ;;
      Ok (System (fst sw) (set_worker i (snd sw) (m_pending sys)))
  | None => Ok sys
  end.

Fixpoint run (events : list (nat * reply)) (sys : system) : outcome system :=
  match events with
  | [] => Ok sys
  | (i, r) :: events' => sys' <- schedule sys i r ;; run events' sys'
  end.

(** Times are counts of microseconds. *)
Definition time_point : Type := N.
Definition microseconds : Type := N.

(** The joins [wait] performs. *)
Inductive join : Type :=
| Wait (i : nat)
| WaitUntil (i : nat) (timeout_time : time_point).

Section Wait.
(** [fc::microseconds::max()] *)
Variable microseconds_max : microseconds.

(** [kad_search::wait(d)], entered when the clock reads [now], with
    [pending] futures in [m_pending]: the joins in the order they are made. *)
Definition wait (d : microseconds) (now : time_point) (pending : nat) : list join :=
  if d =? microseconds_max then
    map Wait (seq 0 pending)
  else
    let timeout_time := now + d in
    map (fun i => WaitUntil i timeout_time) (seq 0 pending).
End Wait.

(** ** The invariant of the result set *)

Module ResultSet.

(** Every entry is keyed by the distance of its identifier to the target. *)
Definition keyed (target : sha1) (r : StdMap.t sha1) : Prop :=
  Forall (fun e => fst e = distance target (snd e)) r.

(** The result set after the identifiers [ids] were admitted in turn,
    starting from the cleared set of [start]. *)
Definition admit_all (target : sha1) (n : nat) (ids : list sha1) : StdMap.t sha1 :=
  fold_left (fun r rtn => admit_result target n rtn r) ids [].

Record invariant (target : sha1) (n : nat) (r : StdMap.t sha1) : Prop := {
  inv_size : (StdMap.size r <= n)%nat;
  inv_ordered : StdMap.ordered r;
  inv_keyed : keyed target r
}.

End ResultSet.

(** The invariant, read off a search object. *)
Definition results_invariant (s : kad_search) : Prop :=
  ResultSet.invariant (m_target s) (m_n s) (m_current_results s).

(** ** The distance stays within the width of a hash *)

Lemma distance_in_range (a b : sha1) :
  a < 2 ^ sha1_bits -> b < 2 ^ sha1_bits -> distance a b < 2 ^ sha1_bits.
Proof.
  intros Ha Hb. unfold distance.
  destruct (N.eq_dec (N.lxor a b) 0) as [Hz|Hnz].
  - rewrite Hz. apply N.neq_0_lt_0, N.pow_nonzero. discriminate.
  - apply N.log2_lt_pow2; [apply N.neq_0_lt_0, Hnz|].
    eapply N.le_lt_trans; [apply N.log2_lxor|].
    apply N.max_lub_lt.
    + destruct (N.eq_dec a 0) as [->|Ha0]; [reflexivity|].
      apply N.log2_lt_pow2; [apply N.neq_0_lt_0, Ha0|exact Ha].
    + destruct (N.eq_dec b 0) as [->|Hb0]; [reflexivity|].
      apply N.log2_lt_pow2; [apply N.neq_0_lt_0, Hb0|exact Hb].
Qed.

Lemma distance_zero_iff (a b : sha1) : distance a b = 0 <-> a = b.
Proof. unfold distance. apply N.lxor_eq_0_iff. Qed.

(** ** Facts about the map model *)

Module StdMapFacts.
Import StdMap.
Section WithValue.
Context {V : Type}.
Implicit Types (m : StdMap.t V) (k : sha1) (v : V).

Lemma set_not_nil k v m : set k v m <> [].
Proof.
  destruct m as [|[k' v'] m']; simpl; [discriminate|].
  destruct (k <? k'); [discriminate|].
  destruct (k =? k'); discriminate.
Qed.

Lemma set_set_same k v m : set k v (set k v m) = set k v m.
Proof.
  induction m as [|[k' v'] m' IH]; simpl.
  - rewrite N.ltb_irrefl, N.eqb_refl. reflexivity.
  - destruct (k <? k') eqn:Hlt; simpl.
    + rewrite N.ltb_irrefl, N.eqb_refl. reflexivity.
    + destruct (k =? k') eqn:Heq; simpl.
      * rewrite N.ltb_irrefl, N.eqb_refl. reflexivity.
      * rewrite Hlt, Heq, IH. reflexivity.
Qed.

Lemma size_set_bounds k v m :
  (size m <= size (set k v m) <= S (size m))%nat.
Proof.
  unfold size. induction m as [|[k' v'] m' IH]; simpl; [lia|].
  destruct (k <? k'); simpl; [lia|].
  destruct (k =? k'); simpl; lia.
Qed.

(** Re-assigning a key after the last entry was erased either restores the
    map or changes nothing. *)
Lemma set_erase_back_set k v m :
  set k v (erase_back (set k v m)) = set k v m
  \/ set k v (erase_back (set k v m)) = erase_back (set k v m).
Proof.
  unfold erase_back.
  induction m as [|[k' v'] m' IH]; simpl.
  - left. reflexivity.
  - destruct (k <? k') eqn:Hlt.
    + right. cbn [removelast]. simpl.
      rewrite N.ltb_irrefl, N.eqb_refl. reflexivity.
    + destruct (k =? k') eqn:Heq.
      * destruct m' as [|e m'']; [left; reflexivity|right].
        cbn [removelast]. simpl.
        rewrite N.ltb_irrefl, N.eqb_refl. reflexivity.
      * assert (Hcons : removelast ((k', v') :: set k v m')
                        = (k', v') :: removelast (set k v m')).
        { pose proof (set_not_nil k v m') as Hnn.
          destruct (set k v m'); [congruence|reflexivity]. }
        rewrite Hcons. simpl set. rewrite Hlt, Heq.
        destruct IH as [IH|IH]; [left|right]; rewrite IH; reflexivity.
Qed.

Lemma back_app_last m e : back (m ++ [e]) = Some e.
Proof.
  induction m as [|a m' IH]; simpl; [reflexivity|].
  destruct (m' ++ [e]) eqn:Happ; [destruct m'; discriminate|exact IH].
Qed.

Lemma back_some_split m e : back m = Some e -> m = erase_back m ++ [e].
Proof.
  unfold erase_back.
  induction m as [|a m' IH]; [discriminate|].
  destruct m' as [|b m'']; [intros [= ->]; reflexivity|].
  intros Hb. change (back (b :: m'') = Some e) in Hb.
  change (a :: b :: m'' = a :: (removelast (b :: m'') ++ [e])).
  f_equal. exact (IH Hb).
Qed.

Lemma back_none m : back m = None -> m = [].
Proof.
  induction m as [|a m' IH]; simpl; [reflexivity|].
  destruct m' as [|b m'']; [discriminate|].
  intros Hb. specialize (IH Hb). discriminate.
Qed.

Lemma back_is_some m : (0 < size m)%nat -> exists e, back m = Some e.
Proof.
  intros Hsz. destruct (back m) as [e|] eqn:Hb; [eauto|].
  apply back_none in Hb. subst m. simpl in Hsz. lia.
Qed.

Lemma size_erase_back m : size (erase_back m) = pred (size m).
Proof.
  unfold size, erase_back.
  induction m as [|a m' IH]; simpl; [reflexivity|].
  destruct m' as [|b m'']; [reflexivity|].
  simpl in *. rewrite IH. reflexivity.
Qed.

End WithValue.
End StdMapFacts.

(** ** Order facts about the map model *)

Module StdMapOrder.
Import StdMap StdMapFacts.
Section WithValue.
Context {V : Type}.
Implicit Types (m : StdMap.t V) (k : sha1) (v : V).

Lemma keys_set_forall (P : sha1 -> Prop) k v m :
  P k -> Forall P (map fst m) -> Forall P (map fst (set k v m)).
Proof.
  intros Hk. induction m as [|[k' v'] m' IH]; simpl; intros Hall.
  - constructor; [exact Hk|constructor].
  - inversion Hall as [|x l Hx Hl]; subst.
    destruct (k <? k'); [constructor; [exact Hk|exact Hall]|].
    destruct (k =? k'); constructor; auto.
Qed.

Lemma ordered_set k v m : ordered m -> ordered (set k v m).
Proof.
  unfold ordered.
  induction m as [|[k' v'] m' IH]; simpl; intros Hs.
  - constructor; constructor.
  - apply StronglySorted_inv in Hs. destruct Hs as [Hs Hall].
    destruct (k <? k') eqn:Hlt.
    + apply N.ltb_lt in Hlt. simpl. constructor.
      * constructor; assumption.
      * constructor; [exact Hlt|].
        eapply Forall_impl; [|exact Hall]. intros a Ha. simpl in Ha. lia.
    + destruct (k =? k') eqn:Heq.
      * apply N.eqb_eq in Heq. subst k'. simpl. constructor; assumption.
      * apply N.ltb_ge in Hlt. apply N.eqb_neq in Heq.
        simpl. constructor; [apply IH; exact Hs|].
        apply keys_set_forall; [lia|exact Hall].
Qed.

Lemma sorted_snoc_inv (l : list sha1) (x : sha1) :
  StronglySorted N.lt (l ++ [x]) ->
  StronglySorted N.lt l /\ Forall (fun y => y < x) l.
Proof.
  induction l as [|a l' IH]; simpl; intros Hs.
  - split; constructor.
  - apply StronglySorted_inv in Hs. destruct Hs as [Hs Hall].
    destruct (IH Hs) as [Hs' Hlt].
    apply Forall_app in Hall. destruct Hall as [Hall Hax].
    inversion Hax; subst.
    split; constructor; assumption.
Qed.

Lemma ordered_erase_back m : ordered m -> ordered (erase_back m).
Proof.
  unfold ordered. intros Hs.
  destruct (back m) as [e|] eqn:Hb.
  - apply back_some_split in Hb. rewrite Hb in Hs.
    rewrite map_app in Hs. simpl in Hs.
    apply sorted_snoc_inv in Hs. tauto.
  - apply back_none in Hb. subst m. constructor.
Qed.

(** In an ordered map the entry before [end()] carries the greatest key. *)
Lemma ordered_back_greatest m e :
  ordered m -> back m = Some e ->
  Forall (fun x => fst x < fst e) (erase_back m).
Proof.
  unfold ordered. intros Hs Hb.
  apply back_some_split in Hb. rewrite Hb in Hs.
  rewrite map_app in Hs. simpl in Hs.
  apply sorted_snoc_inv in Hs. destruct Hs as [_ Hall].
  apply Forall_map in Hall. exact Hall.
Qed.

Lemma forall_set (P : sha1 * V -> Prop) k v m :
  P (k, v) -> Forall P m -> Forall P (set k v m).
Proof.
  intros Hk. induction m as [|[k' v'] m' IH]; simpl; intros Hall.
  - constructor; [exact Hk|constructor].
  - inversion Hall; subst.
    destruct (k <? k'); [constructor; assumption|].
    destruct (k =? k'); constructor; auto.
Qed.

Lemma forall_erase_back (P : sha1 * V -> Prop) m :
  Forall P m -> Forall P (erase_back m).
Proof.
  intros Hall. destruct (back m) as [e|] eqn:Hb.
  - apply back_some_split in Hb. rewrite Hb in Hall.
    apply Forall_app in Hall. tauto.
  - apply back_none in Hb. subst m. constructor.
Qed.

End WithValue.
End StdMapOrder.

(** ** Lookup and membership in the map model *)

Module StdMapLookup.
Import StdMap StdMapFacts StdMapOrder.
Section WithValue.
Context {V : Type}.
Implicit Types (m : StdMap.t V) (k : sha1) (v : V).

Lemma find_set_same k v m : find k (set k v m) = Some v.
Proof.
  induction m as [|[k' v'] m' IH]; simpl.
  - rewrite N.eqb_refl. reflexivity.
  - destruct (k <? k') eqn:Hlt; simpl; [rewrite N.eqb_refl; reflexivity|].
    destruct (k =? k') eqn:Heq; simpl; [rewrite N.eqb_refl; reflexivity|].
    rewrite Heq. exact IH.
Qed.

Lemma find_set_other k k' v m : k' <> k -> find k' (set k v m) = find k' m.
Proof.
  intros Hne. apply N.eqb_neq in Hne.
  induction m as [|[k0 v0] m' IH]; simpl.
  - rewrite Hne. reflexivity.
  - destruct (k <? k0) eqn:Hlt; simpl; [rewrite Hne; reflexivity|].
    destruct (k =? k0) eqn:Heq; simpl.
    + apply N.eqb_eq in Heq. subst k0. rewrite Hne. reflexivity.
    + rewrite IH. reflexivity.
Qed.

Lemma in_set_new k v m : In (k, v) (set k v m).
Proof.
  induction m as [|[k' v'] m' IH]; simpl; [auto|].
  destruct (k <? k'); [left; reflexivity|].
  destruct (k =? k'); [left; reflexivity|right; exact IH].
Qed.

Lemma in_set_old k v m (e : sha1 * V) :
  In e m -> fst e <> k -> In e (set k v m).
Proof.
  intros Hin Hne.
  induction m as [|[k' v'] m' IH]; simpl; [contradiction|].
  destruct (k <? k'); [right; exact Hin|].
  destruct (k =? k') eqn:Heq.
  - apply N.eqb_eq in Heq. subst k'.
    destruct Hin as [<-|Hin]; [simpl in Hne; congruence|right; exact Hin].
  - destruct Hin as [<-|Hin]; [left; reflexivity|right; apply IH, Hin].
Qed.

Lemma in_set_inv k v m (e : sha1 * V) :
  In e (set k v m) -> e = (k, v) \/ In e m.
Proof.
  induction m as [|[k' v'] m' IH]; simpl.
  - intros [<-|[]]. left. reflexivity.
  - destruct (k <? k'); [intros [<-|Hin]; auto|].
    destruct (k =? k').
    + intros [<-|Hin]; auto.
    + intros [<-|Hin]; [auto|]. destruct (IH Hin); auto.
Qed.

(** An assignment either adds an entry or overwrites the entry of its key. *)
Lemma size_set_cases k v m :
  size (set k v m) = S (size m)
  \/ (size (set k v m) = size m /\ exists v', In (k, v') m).
Proof.
  unfold size. induction m as [|[k' v'] m' IH]; simpl; [auto|].
  destruct (k <? k'); [left; reflexivity|].
  destruct (k =? k') eqn:Heq.
  - apply N.eqb_eq in Heq. subst k'. right. split; [reflexivity|eauto].
  - simpl. destruct IH as [IH|[IH [v0 Hin]]]; [left; lia|right].
    split; [lia|eauto].
Qed.

Lemma in_erase_back m (e : sha1 * V) : In e (erase_back m) -> In e m.
Proof.
  intros Hin. destruct (back m) as [b|] eqn:Hb.
  - rewrite (back_some_split m b Hb). apply in_or_app. left. exact Hin.
  - apply back_none in Hb. subst m. exact Hin.
Qed.

Lemma in_back m (b : sha1 * V) : back m = Some b -> In b m.
Proof.
  intros Hb. rewrite (back_some_split m b Hb).
  apply in_or_app. right. left. reflexivity.
Qed.

Lemma in_back_or_before m (b e : sha1 * V) :
  back m = Some b -> In e m -> e = b \/ In e (erase_back m).
Proof.
  intros Hb Hin. rewrite (back_some_split m b Hb) in Hin.
  apply in_app_or in Hin. destruct Hin as [Hin|[<-|[]]]; auto.
Qed.

(** In an ordered map no entry has a key above that of the last entry. *)
Lemma ordered_back_bound m (b e : sha1 * V) :
  ordered m -> back m = Some b -> In e m -> fst e <= fst b.
Proof.
  intros Hord Hb Hin.
  destruct (in_back_or_before m b e Hb Hin) as [->|Hbefore]; [apply N.le_refl|].
  pose proof (ordered_back_greatest m b Hord Hb) as Hall.
  rewrite Forall_forall in Hall. apply N.lt_le_incl, Hall, Hbefore.
Qed.

Lemma ordered_erase_begin m : ordered m -> ordered (erase_begin m).
Proof.
  unfold ordered, erase_begin. destruct m as [|e m']; simpl; [auto|].
  intros Hs. apply StronglySorted_inv in Hs. tauto.
Qed.

Lemma find_some_in k v m : find k m = Some v -> In (k, v) m.
Proof.
  induction m as [|[k' v'] m' IH]; simpl; [discriminate|].
  destruct (k =? k') eqn:Heq.
  - apply N.eqb_eq in Heq. subst k'. intros [= ->]. left. reflexivity.
  - intros Hf. right. apply IH, Hf.
Qed.

End WithValue.
End StdMapLookup.


(** ** The invariant is kept *)

Module ResultSetFacts.
Import StdMap StdMapFacts StdMapOrder ResultSet.

Lemma invariant_nil target n : invariant target n [].
Proof. split; [simpl; lia|constructor|constructor]. Qed.

Lemma invariant_admit target n rtn r :
  invariant target n r -> invariant target n (admit_result target n rtn r).
Proof.
  intros [Hsz Hord Hkey]. unfold admit_result.
  pose proof (size_set_bounds (distance target rtn) rtn r) as Hb.
  destruct (Nat.ltb n _) eqn:Hlt.
  - split.
    + rewrite size_erase_back. lia.
    + apply ordered_erase_back, ordered_set, Hord.
    + apply forall_erase_back, forall_set; [reflexivity|exact Hkey].
  - apply Nat.ltb_ge in Hlt. split.
    + exact Hlt.
    + apply ordered_set, Hord.
    + apply forall_set; [reflexivity|exact Hkey].
Qed.

Lemma invariant_fold target n ids r :
  invariant target n r ->
  invariant target n (fold_left (fun r rtn => admit_result target n rtn r) ids r).
Proof.
  revert r. induction ids as [|rtn ids' IH]; simpl; intros r Hinv; [exact Hinv|].
  apply IH, invariant_admit, Hinv.
Qed.

Lemma invariant_admit_all target n ids : invariant target n (admit_all target n ids).
Proof. apply invariant_fold, invariant_nil. Qed.

Lemma keyed_distances target (r : StdMap.t sha1) :
  keyed target r -> map (fun e => distance (snd e) target) r = map fst r.
Proof.
  induction 1 as [|e r' He _ IH]; simpl; [reflexivity|].
  rewrite IH, He. unfold distance. rewrite N.lxor_comm. reflexivity.
Qed.

End ResultSetFacts.

(** ** The bounded result set *)

Import StdMapFacts StdMapOrder StdMapLookup ResultSetFacts.

(** The invariant holds after [start] and is kept by every segment of every
    worker, whatever the collaborators reply. *)

Lemma loop_head_frame (s : kad_search) :
  m_n (fst (loop_head s)) = m_n s
  /\ m_target (fst (loop_head s)) = m_target s
  /\ m_current_results (fst (loop_head s)) = m_current_results s.
Proof.
  unfold loop_head, take_next.
  destruct (StdMap.begin (m_search_queue s)) as [[key e]|]; [|auto].
  destruct (status_eqb (m_cur_status s) searching); auto.
Qed.

Lemma loop_head_invariant (s : kad_search) :
  results_invariant s -> results_invariant (fst (loop_head s)).
Proof.
  unfold results_invariant.
  destruct (loop_head_frame s) as (-> & -> & ->). auto.
Qed.

Lemma offer_invariant (rri : host) (s s' : kad_search) :
  offer rri s = Ok s' -> results_invariant s -> results_invariant s'.
Proof.
  unfold offer, results_invariant.
  destruct (StdMap.find _ _); [intros [= <-]; auto|].
  destruct (Nat.ltb _ _); [intros [= <-]; auto|].
  destruct (StdMap.back _) as [[worst v]|]; [|discriminate].
  destruct (id rri <? worst); intros [= <-]; auto.
Qed.

Lemma merge_invariant (rr : list host) (s s' : kad_search) :
  merge rr s = Ok s' -> results_invariant s -> results_invariant s'.
Proof.
  revert s. induction rr as [|rri rr' IH]; simpl; intros s Hm Hinv.
  - injection Hm as <-. exact Hinv.
  - destruct (offer rri s) as [s1|] eqn:Hoffer; [|discriminate].
    simpl in Hm. eapply IH; [exact Hm|].
    eapply offer_invariant; eassumption.
Qed.

Lemma resume_invariant (s s' : kad_search) (w w' : worker) (r : reply) :
  resume s w r = Ok (s', w') -> results_invariant s -> results_invariant s'.
Proof.
  intros Hres Hinv.
  assert (Hhead : forall s0 sw, results_invariant s0 ->
            Ok (loop_head s0) = Ok sw -> results_invariant (fst sw)).
  { intros s0 sw H0 [= <-]. apply loop_head_invariant, H0. }
  assert (Hadmit : forall rtn, results_invariant (admit_rtn rtn s)).
  { intros rtn. apply invariant_admit, Hinv. }
  assert (Hfilter : forall rtn accepted,
            after_filter s rtn accepted = Ok (s', w') -> results_invariant s').
  { intros rtn accepted Haf. unfold after_filter in Haf.
    destruct accepted; [|apply (Hhead s (s', w') Hinv Haf)].
    destruct (status_eqb _ done).
    - injection Haf as <- _. destruct (rtn =? _); apply (Hadmit rtn).
    - destruct (query_limit _); [|discriminate]. simpl in Haf.
      injection Haf as <- _. destruct (rtn =? _); apply (Hadmit rtn). }
  assert (Hquery : forall rr,
            after_query s rr = Ok (s', w') -> results_invariant s').
  { intros [rr|] Haq; simpl in Haq; [|apply (Hhead s (s', w') Hinv Haq)].
    destruct (merge rr s) as [s1|] eqn:Hm; [|discriminate]. simpl in Haq.
    apply (Hhead s1 (s', w')); [|exact Haq].
    eapply merge_invariant; eassumption. }
  destruct w as [|e|rtn|rtn target n limit|]; destruct r as [|rtn'| |rr|];
    unfold resume, after_connect in Hres;
    solve [ injection Hres as <- _; exact Hinv
          | apply (Hhead s (s', w') Hinv Hres)
          | eapply Hfilter; exact Hres
          | eapply Hquery; exact Hres ].
Qed.

Lemma run_invariant (events : list (nat * reply)) (sys sys' : system) :
  run events sys = Ok sys' ->
  results_invariant (shared sys) -> results_invariant (shared sys').
Proof.
  revert sys. induction events as [|[i r] events' IH]; simpl; intros sys Hrun Hinv.
  - injection Hrun as <-. exact Hinv.
  - destruct (schedule sys i r) as [sys1|] eqn:Hsched; [|discriminate].
    simpl in Hrun. apply (IH sys1 Hrun).
    unfold schedule in Hsched.
    destruct (nth_error (m_pending sys) i) as [w|];
      [|injection Hsched as <-; exact Hinv].
    destruct (resume (shared sys) w r) as [[s1 w1]|] eqn:Hres; [|discriminate].
    simpl in Hsched. injection Hsched as <-. simpl.
    eapply resume_invariant; eassumption.
Qed.

Lemma start_invariant (nn : list host) (this : system) :
  results_invariant (shared (start nn this)).
Proof. apply invariant_nil. Qed.

(** C3.  Whatever identifiers were admitted since [start], admitting one more
    leaves a result set of at most [n] entries, ascending in the distance of
    its identifiers to the target; and when the insertion made the size
    exceed [n], exactly the entry of greatest distance was removed. *)
Theorem result_set_bounded_and_ordered
    (target : sha1) (n : nat) (ids : list sha1) (rtn : sha1) :
  let r := ResultSet.admit_all target n ids in
  let inserted := StdMap.set (distance target rtn) rtn r in
  let r' := admit_result target n rtn r in
  r' = ResultSet.admit_all target n (ids ++ [rtn])
  /\ (StdMap.size r' <= n)%nat
  /\ StronglySorted N.lt (map (fun e => distance (snd e) target) r')
  /\ ((n < StdMap.size inserted)%nat ->
      exists worst,
        inserted = r' ++ [worst]
        /\ Forall (fun e => distance (snd e) target < distance (snd worst) target) r')
  /\ ((StdMap.size inserted <= n)%nat -> r' = inserted).
Proof.
  intros r inserted r'.
  pose proof (ResultSetFacts.invariant_admit_all target n ids) as Hinv.
  fold r in Hinv.
  pose proof (invariant_admit target n rtn r Hinv) as Hinv'.
  fold r' in Hinv'. destruct Hinv' as [Hsz Hord Hkey].
  split; [|split; [|split; [|split]]].
  - unfold r', r, ResultSet.admit_all. rewrite fold_left_app. reflexivity.
  - exact Hsz.
  - rewrite (keyed_distances target r' Hkey). exact Hord.
  - intros Hgt.
    assert (Hr' : r' = StdMap.erase_back inserted).
    { unfold r', admit_result. fold inserted.
      apply Nat.ltb_lt in Hgt. rewrite Hgt. reflexivity. }
    assert (Hpos : (0 < StdMap.size inserted)%nat) by lia.
    destruct (back_is_some inserted Hpos) as [worst Hback].
    exists worst.
    assert (Hins_ord : StdMap.ordered inserted).
    { apply ordered_set. apply Hinv. }
    assert (Hins_key : ResultSet.keyed target inserted).
    { apply forall_set; [reflexivity|apply Hinv]. }
    pose proof (back_some_split inserted worst Hback) as Hsplit.
    rewrite <- Hr' in Hsplit.
    split; [exact Hsplit|].
    pose proof (ordered_back_greatest inserted worst Hins_ord Hback) as Hmax.
    rewrite <- Hr' in Hmax.
    assert (Hworst : fst worst = distance target (snd worst)).
    { unfold ResultSet.keyed in Hins_key. rewrite Hsplit in Hins_key.
      apply Forall_app in Hins_key. destruct Hins_key as [_ Hw].
      inversion Hw; subst; assumption. }
    unfold ResultSet.keyed in Hkey.
    rewrite Forall_forall in *. intros e He.
    specialize (Hmax e He). specialize (Hkey e He).
    unfold distance in *.
    rewrite (N.lxor_comm (snd e)), (N.lxor_comm (snd worst)).
    rewrite <- Hkey, <- Hworst. exact Hmax.
  - intros Hle. unfold r', admit_result. fold inserted.
    apply Nat.ltb_ge in Hle. rewrite Hle. reflexivity.
Qed.

Lemma admit_result_idempotent (target : sha1) (n : nat) (rtn : sha1) (r : StdMap.t sha1) :
  (StdMap.size r <= n)%nat ->
  admit_result target n rtn (admit_result target n rtn r) = admit_result target n rtn r.
Proof.
  intros Hcap. unfold admit_result.
  set (d := distance target rtn).
  pose proof (size_set_bounds d rtn r) as Hb.
  destruct (Nat.ltb n (StdMap.size (StdMap.set d rtn r))) eqn:Hlt.
  - destruct (set_erase_back_set d rtn r) as [Heq|Heq]; rewrite Heq.
    + rewrite Hlt. reflexivity.
    + assert (Hsmall : Nat.ltb n (StdMap.size (StdMap.erase_back (StdMap.set d rtn r))) = false).
      { apply Nat.ltb_ge. rewrite size_erase_back. lia. }
      rewrite Hsmall. reflexivity.
  - rewrite set_set_same, Hlt. reflexivity.
Qed.

(** C8.  Offering the same pair twice in succession leaves the search as
    offering it once does, and so does admitting the same identifier twice
    (the result set holding at most [m_n] entries, as it always does). *)
Theorem offer_and_admit_idempotent
    (s : kad_search) (rri : host) (rtn : sha1)
    (Hcap : (StdMap.size (m_current_results s) <= m_n s)%nat) :
  (s' <- offer rri s ;; offer rri s') = offer rri s
  /\ admit_rtn rtn (admit_rtn rtn s) = admit_rtn rtn s.
Proof.
  split.
  - unfold offer, bind.
    destruct (StdMap.find (id rri) (m_current_results s)) as [x|] eqn:Hfind.
    + rewrite Hfind. reflexivity.
    + destruct (Nat.ltb (StdMap.size (m_current_results s)) (m_n s)) eqn:Hlt.
      * simpl. rewrite Hfind, Hlt, set_set_same. reflexivity.
      * destruct (StdMap.back (m_current_results s)) as [[worst v]|] eqn:Hback;
          [|reflexivity].
        destruct (id rri <? worst) eqn:Hcloser.
        -- simpl. rewrite Hfind, Hlt, Hback, Hcloser, set_set_same. reflexivity.
        -- rewrite Hfind, Hlt, Hback, Hcloser. reflexivity.
  - unfold admit_rtn, with_results. simpl.
    rewrite admit_result_idempotent by exact Hcap. reflexivity.
Qed.

Lemma offer_and_admit_idempotent_witness :
  let s := KadSearch 2 1 4 13 [(6, 60)] [(1, 5)] searching in
  (s' <- offer (Host 7 70) s ;; offer (Host 7 70) s') = offer (Host 7 70) s
  /\ admit_rtn 6 (admit_rtn 6 s) = admit_rtn 6 s.
Proof.
  apply (offer_and_admit_idempotent
           (KadSearch 2 1 4 13 [(6, 60)] [(1, 5)] searching) (Host 7 70) 6).
  simpl. lia.
Defined.

(** ** Finding the target *)

Lemma set_zero_head {V : Type} (v : V) (m : StdMap.t V) :
  exists m0, StdMap.set 0 v m = (0, v) :: m0.
Proof.
  destruct m as [|[k' v'] m']; simpl; [eauto|].
  destruct (0 <? k') eqn:Hlt; [eauto|].
  apply N.ltb_ge in Hlt. assert (k' = 0) by lia. subst k'. simpl. eauto.
Qed.

Lemma admit_target_head (target : sha1) (n : nat) (r : StdMap.t sha1) :
  (1 <= n)%nat ->
  exists r0, admit_result target n target r = (0, target) :: r0.
Proof.
  intros Hn. unfold admit_result, distance. rewrite N.lxor_nilpotent.
  destruct (set_zero_head target r) as [m0 Hset]. rewrite Hset.
  destruct (Nat.ltb n (StdMap.size ((0, target) :: m0))) eqn:Hlt; [|eauto].
  apply Nat.ltb_lt in Hlt. simpl in Hlt.
  destruct m0 as [|e m0']; [simpl in Hlt; lia|].
  exists (removelast (e :: m0')). reflexivity.
Qed.

(** C4 (as amended).  When the identifier resolved for a candidate is the
    target, the filter accepts it and at least one result is asked for, the
    worker sets the status to [done] and returns, and the result set holds
    the target under the key 0, its distance to itself. *)
Theorem target_found_sets_done
    (s : kad_search) (rtn : sha1)
    (Htarget : rtn = m_target s) (Hn : (1 <= m_n s)%nat) :
  distance (m_target s) rtn = 0
  /\ exists s',
       resume s (Filtering rtn) Accepted = Ok (s', Returned)
       /\ m_cur_status s' = done
       /\ StdMap.begin (m_current_results s') = Some (0, m_target s)
       /\ StdMap.find 0 (m_current_results s') = Some (m_target s).
Proof.
  subst rtn. split; [apply N.lxor_nilpotent|].
  exists (with_status done (admit_rtn (m_target s) s)).
  destruct (admit_target_head (m_target s) (m_n s) (m_current_results s) Hn)
    as [r0 Hhead].
  simpl. unfold after_filter. simpl.
  rewrite N.eqb_refl. simpl.
  rewrite Hhead. simpl. auto.
Qed.

Lemma target_found_sets_done_witness :
  distance 4 4 = 0
  /\ exists s',
       resume (KadSearch 1 1 4 13 [] [(1, 5)] searching) (Filtering 4) Accepted
         = Ok (s', Returned)
       /\ m_cur_status s' = done
       /\ StdMap.begin (m_current_results s') = Some (0, 4)
       /\ StdMap.find 0 (m_current_results s') = Some 4.
Proof.
  apply (target_found_sets_done (KadSearch 1 1 4 13 [] [(1, 5)] searching) 4).
  - reflexivity.
  - simpl. lia.
Defined.

(** C4, the claim as stated fails: with no result asked for ([m_n = 0]) the
    target is inserted and evicted at once, so the status is [done] over an
    empty result set; and when the filter throws for the target, nothing is
    admitted and the status stays [searching]. *)
Lemma target_found_counterexample :
  let found := [(0%nat, Run); (0%nat, Resolved 4)] in
  (exists s',
     run (found ++ [(0%nat, Accepted)]) (start [Host 4 40] (new_search 9 4 0 1))
       = Ok (System s' [Returned])
     /\ m_cur_status s' = done
     /\ StdMap.find 0 (m_current_results s') = None)
  /\ (exists s',
     run (found ++ [(0%nat, Threw)]) (start [Host 4 40] (new_search 9 4 1 1))
       = Ok (System s' [Returned])
     /\ m_cur_status s' = searching
     /\ m_current_results s' = []).
Proof.
  split; eexists; (split; [vm_compute; reflexivity|split; reflexivity]).
Qed.

(** ** Failures of the collaborator *)

Lemma loop_head_keeps (s : kad_search) :
  m_current_results (fst (loop_head s)) = m_current_results s
  /\ m_cur_status (fst (loop_head s)) = m_cur_status s.
Proof.
  unfold loop_head, take_next.
  destruct (StdMap.begin (m_search_queue s)) as [[key e]|]; [|auto].
  destruct (status_eqb (m_cur_status s) searching); auto.
Qed.

Lemma loop_head_takes (s : kad_search) (key : sha1) (e : endpoint) (q : StdMap.t endpoint) :
  m_cur_status s = searching ->
  m_search_queue s = (key, e) :: q ->
  loop_head s = (with_queue q s, Connecting e).
Proof.
  intros Hst Hq. unfold loop_head, take_next. rewrite Hq, Hst. reflexivity.
Qed.

Lemma loop_head_returns (s : kad_search) :
  snd (loop_head s) = Returned ->
  m_search_queue s = [] \/ m_cur_status s <> searching.
Proof.
  unfold loop_head, take_next.
  destruct (m_search_queue s) as [|[key e] q]; [auto|]. simpl.
  destruct (m_cur_status s); simpl; try discriminate; right; discriminate.
Qed.

(** C5.  An exception out of [connect_to] or out of [remote_nodes_near] is
    absorbed inside the iteration: the worker is back at the loop test with
    the result set and the status untouched, takes the next candidate if
    there is one and the search is still on, and returns only for the
    reasons the loop test gives.  In particular an identifier admitted before
    the remote query failed is still in the result set. *)
Theorem failures_are_contained
    (s : kad_search) (w : worker)
    (Hcall : (exists e, w = Connecting e)
             \/ (exists rtn target n limit, w = Querying rtn target n limit)) :
  exists s' w',
    resume s w Threw = Ok (s', w')
    /\ m_current_results s' = m_current_results s
    /\ m_cur_status s' = m_cur_status s
    /\ (forall key e q,
          m_cur_status s = searching -> m_search_queue s = (key, e) :: q ->
          w' = Connecting e /\ m_search_queue s' = q)
    /\ (w' = Returned -> m_search_queue s = [] \/ m_cur_status s <> searching)
    /\ (forall rtn target n limit s0,
          after_filter s0 rtn true = Ok (s, Querying rtn target n limit) ->
          w = Querying rtn target n limit ->
          m_current_results s'
            = admit_result (m_target s0) (m_n s0) rtn (m_current_results s0)).
Proof.
  assert (Hres : resume s w Threw = Ok (loop_head s)).
  { destruct Hcall as [[e ->]|(rtn & target & n & limit & ->)]; reflexivity. }
  exists (fst (loop_head s)), (snd (loop_head s)).
  rewrite Hres, <- surjective_pairing.
  destruct (loop_head_keeps s) as [Hr Hst].
  split; [reflexivity|]. split; [exact Hr|]. split; [exact Hst|].
  split; [|split].
  - intros key e q Hs Hq. rewrite (loop_head_takes s key e q Hs Hq). auto.
  - apply loop_head_returns.
  - intros rtn target n limit s0 Haf _. rewrite Hr.
    unfold after_filter in Haf.
    destruct (status_eqb _ done); [discriminate|].
    destruct (query_limit _) as [l|]; [|discriminate].
    simpl in Haf. injection Haf as Hs _ _ _. rewrite <- Hs.
    destruct (rtn =? m_target s0); reflexivity.
Qed.

Lemma failures_are_contained_witness :
  exists s' w',
    resume (KadSearch 2 1 4 13 [(6, 60)] [(1, 5)] searching)
           (Querying 5 4 2 None) Threw = Ok (s', w')
    /\ m_current_results s' = [(1, 5)]
    /\ w' = Connecting 60.
Proof.
  destruct (failures_are_contained
              (KadSearch 2 1 4 13 [(6, 60)] [(1, 5)] searching)
              (Querying 5 4 2 None)) as (s' & w' & Hres & Hr & _ & Hnext & _).
  - right. exists 5, 4, 2%nat, None. reflexivity.
  - exists s', w'. split; [exact Hres|]. split; [exact Hr|].
    apply (Hnext 6 60 []); reflexivity.
Defined.

(** ** The remote query *)

Lemma query_limit_cases (s : kad_search) :
  ((m_n s <= StdMap.size (m_current_results s))%nat /\ (0 < m_n s)%nat ->
     exists worst v,
       StdMap.back (m_current_results s) = Some (worst, v)
       /\ query_limit s = Ok (Some worst))
  /\ (~ ((m_n s <= StdMap.size (m_current_results s))%nat /\ (0 < m_n s)%nat) ->
     query_limit s = Ok None).
Proof.
  unfold query_limit. split.
  - intros [Hfull Hpos].
    assert (Hsz : (0 < StdMap.size (m_current_results s))%nat) by lia.
    destruct (back_is_some _ Hsz) as [[worst v] Hback].
    exists worst, v. split; [exact Hback|].
    apply Nat.leb_le in Hfull. rewrite Hfull, Hback.
    destruct (m_n s); [lia|reflexivity].
  - intros Hnot.
    destruct (Nat.leb (m_n s) (StdMap.size (m_current_results s))) eqn:Hle;
      [|reflexivity].
    apply Nat.leb_le in Hle.
    destruct (m_n s) eqn:Hn; [reflexivity|].
    exfalso. apply Hnot. lia.
Qed.

(** C7.  After admitting [rtn] (not the target, search not done) the worker
    calls [remote_nodes_near(rtn, m_target, m_n, limit)]: it asks for [m_n]
    nodes, and [limit] is read from the result set as it is at that moment:
    the key of its last entry, which is the greatest distance of a result to
    the target, exactly when the set holds at least [m_n] entries and
    [m_n > 0], and no limit otherwise. *)
Theorem remote_query_arguments
    (s : kad_search) (rtn : sha1)
    (Hinv : results_invariant s)
    (Hother : rtn <> m_target s)
    (Hstatus : m_cur_status s <> done) :
  let s' := admit_rtn rtn s in
  let full := (m_n s <= StdMap.size (m_current_results s'))%nat /\ (0 < m_n s)%nat in
  exists limit,
    resume s (Filtering rtn) Accepted
      = Ok (s', Querying rtn (m_target s) (m_n s) limit)
    /\ (full ->
        exists worst,
          StdMap.back (m_current_results s')
            = Some (distance (m_target s) worst, worst)
          /\ limit = Some (distance (m_target s) worst)
          /\ Forall (fun e => distance (m_target s) (snd e)
                              <= distance (m_target s) worst)
                    (m_current_results s'))
    /\ (~ full -> limit = None).
Proof.
  intros s' full.
  assert (Hinv' : ResultSet.invariant (m_target s) (m_n s) (m_current_results s')).
  { apply invariant_admit, Hinv. }
  destruct (query_limit_cases s') as [Hfull Hnone].
  assert (Hstep : forall limit, query_limit s' = Ok limit ->
            resume s (Filtering rtn) Accepted
              = Ok (s', Querying rtn (m_target s) (m_n s) limit)).
  { intros limit Hq. simpl. unfold after_filter.
    replace (m_target (admit_rtn rtn s)) with (m_target s) by reflexivity.
    apply N.eqb_neq in Hother. rewrite Hother.
    replace (m_cur_status (admit_rtn rtn s)) with (m_cur_status s) by reflexivity.
    fold s'. rewrite Hq.
    destruct (m_cur_status s); try reflexivity. congruence. }
  destruct (Nat.le_gt_cases (m_n s) (StdMap.size (m_current_results s'))) as [Hle|Hgt].
  - destruct (Nat.eq_0_gt_0_cases (m_n s)) as [Hz|Hpos].
    + exists None. split; [apply Hstep, Hnone; change (m_n s') with (m_n s); lia|].
      split; [unfold full; lia|reflexivity].
    + change (m_n s') with (m_n s) in Hfull.
      destruct (Hfull (conj Hle Hpos)) as (worst & v & Hback & Hq).
      exists (Some worst). split; [apply Hstep, Hq|].
      split; [|unfold full; tauto].
      intros _. exists v.
      destruct Hinv' as [_ Hord Hkey].
      pose proof (back_some_split _ _ Hback) as Hsplit.
      pose proof (ordered_back_greatest _ _ Hord Hback) as Hmax.
      assert (Hw : worst = distance (m_target s) v).
      { unfold ResultSet.keyed in Hkey. rewrite Hsplit in Hkey.
        apply Forall_app in Hkey. destruct Hkey as [_ Hk].
        inversion Hk; subst; assumption. }
      rewrite <- Hw. split; [exact Hback|]. split; [reflexivity|].
      rewrite Hsplit. apply Forall_app. split.
      * apply forall_erase_back with (P := fun e => fst e = distance (m_target s) (snd e))
          in Hkey.
        rewrite Forall_forall in *. intros e He.
        specialize (Hmax e He). specialize (Hkey e He).
        simpl in Hmax. rewrite <- Hkey. apply N.lt_le_incl, Hmax.
      * constructor; [simpl; rewrite <- Hw; apply N.le_refl|constructor].
  - exists None. split; [apply Hstep, Hnone; change (m_n s') with (m_n s); lia|].
    split; [unfold full; lia|reflexivity].
Qed.

Lemma remote_query_arguments_witness :
  exists limit,
    resume (KadSearch 2 1 4 13 [] [(1, 5)] searching) (Filtering 6) Accepted
      = Ok (admit_rtn 6 (KadSearch 2 1 4 13 [] [(1, 5)] searching),
            Querying 6 4 2 limit)
    /\ limit = Some 2.
Proof.
  destruct (remote_query_arguments
              (KadSearch 2 1 4 13 [] [(1, 5)] searching) 6)
    as (limit & Hres & Hfull & _).
  - split; simpl.
    + lia.
    + repeat constructor.
    + repeat constructor.
  - discriminate.
  - discriminate.
  - exists limit. split; [exact Hres|].
    destruct Hfull as (worst & Hback & Hlimit & _).
    + simpl. lia.
    + rewrite Hlimit. vm_compute in Hback. injection Hback as _ Hw.
      rewrite <- Hw. reflexivity.
Defined.

(** ** The predecessor of [end()] *)

Lemma offer_keeps (rri : host) (s s' : kad_search) :
  offer rri s = Ok s' ->
  m_n s' = m_n s /\ m_target s' = m_target s
  /\ m_current_results s' = m_current_results s
  /\ m_cur_status s' = m_cur_status s.
Proof.
  unfold offer.
  destruct (StdMap.find _ _); [intros [= <-]; auto|].
  destruct (Nat.ltb _ _); [intros [= <-]; auto|].
  destruct (StdMap.back _) as [[worst v]|]; [|discriminate].
  destruct (id rri <? worst); intros [= <-]; auto.
Qed.

Lemma offer_queue_cases (rri : host) (s s' : kad_search) :
  offer rri s = Ok s' ->
  s' = s \/ s' = with_queue (StdMap.set (id rri) (ep rri) (m_search_queue s)) s.
Proof.
  unfold offer.
  destruct (StdMap.find _ _); [intros [= <-]; auto|].
  destruct (Nat.ltb _ _); [intros [= <-]; auto|].
  destruct (StdMap.back _) as [[worst v]|]; [|discriminate].
  destruct (id rri <? worst); intros [= <-]; auto.
Qed.



Lemma offer_defined (rri : host) (s : kad_search) :
  (1 <= m_n s)%nat -> exists s', offer rri s = Ok s'.
Proof.
  intros Hn. unfold offer.
  destruct (StdMap.find _ _); [eauto|].
  destruct (Nat.ltb _ _) eqn:Hlt; [eauto|].
  apply Nat.ltb_ge in Hlt.
  assert (Hsz : (0 < StdMap.size (m_current_results s))%nat) by lia.
  destruct (back_is_some _ Hsz) as [[worst v] ->].
  destruct (id rri <? worst); eauto.
Qed.

Lemma merge_defined (rr : list host) (s : kad_search) :
  (1 <= m_n s)%nat ->
  exists s', merge rr s = Ok s'
    /\ m_n s' = m_n s /\ m_target s' = m_target s
    /\ m_current_results s' = m_current_results s
    /\ m_cur_status s' = m_cur_status s.
Proof.
  revert s. induction rr as [|rri rr' IH]; intros s Hn; simpl.
  - exists s. auto.
  - destruct (offer_defined rri s Hn) as [s1 Hoffer].
    destruct (offer_keeps rri s s1 Hoffer) as (Hn1 & Ht1 & Hr1 & Hs1).
    rewrite Hoffer. simpl.
    destruct (IH s1) as (s' & Hm & Hn' & Ht' & Hr' & Hs'); [lia|].
    exists s'. rewrite Hm. repeat split; congruence.
Qed.

Lemma query_limit_defined (s : kad_search) : exists limit, query_limit s = Ok limit.
Proof.
  destruct (query_limit_cases s) as [Hfull Hnone].
  destruct (Nat.le_gt_cases (m_n s) (StdMap.size (m_current_results s))) as [Hle|Hgt].
  - destruct (Nat.eq_0_gt_0_cases (m_n s)) as [Hz|Hpos].
    + exists None. apply Hnone. lia.
    + destruct (Hfull (conj Hle Hpos)) as (worst & v & _ & Hq). eauto.
  - exists None. apply Hnone. lia.
Qed.

(** C10.  With [m_n >= 1] the result set is not empty wherever the worker
    decrements [end()]: under the test of line 101 and in the [else] branch
    of line 122; so the limit and the merge of any answer are defined.  With
    [m_n = 0] the result set is empty, and the merge of a non-empty answer
    reaches that [else] branch and decrements [end()] of the empty map. *)
Theorem end_predecessor_defined
    (s : kad_search)
    (Hcap : (StdMap.size (m_current_results s) <= m_n s)%nat) :
  ((1 <= m_n s)%nat ->
     (Nat.leb (m_n s) (StdMap.size (m_current_results s))
        && negb (Nat.eqb (m_n s) 0) = true ->
      exists e, StdMap.back (m_current_results s) = Some e)
     /\ (Nat.ltb (StdMap.size (m_current_results s)) (m_n s) = false ->
         exists e, StdMap.back (m_current_results s) = Some e)
     /\ (exists limit, query_limit s = Ok limit)
     /\ (forall rr, exists s', merge rr s = Ok s'))
  /\ ((m_n s = 0)%nat ->
     m_current_results s = []
     /\ query_limit s = Ok None
     /\ forall rri rr, merge (rri :: rr) s = Undefined).
Proof.
  split.
  - intros Hn. split; [|split; [|split]].
    + intros Htest. apply andb_prop in Htest. destruct Htest as [Hle _].
      apply Nat.leb_le in Hle. apply back_is_some. lia.
    + intros Htest. apply Nat.ltb_ge in Htest. apply back_is_some. lia.
    + apply query_limit_defined.
    + intros rr. destruct (merge_defined rr s Hn) as (s' & Hm & _). eauto.
  - intros Hz.
    assert (Hnil : m_current_results s = []).
    { destruct (m_current_results s); [reflexivity|simpl in Hcap; lia]. }
    split; [exact Hnil|]. split.
    + unfold query_limit. rewrite Hz, Bool.andb_false_r. reflexivity.
    + intros rri rr. simpl. unfold offer. rewrite Hnil, Hz. reflexivity.
Qed.

Lemma end_predecessor_defined_witness :
  let s := KadSearch 1 1 4 13 [] [(1, 5)] searching in
  (exists limit, query_limit s = Ok limit)
  /\ (forall rr, exists s', merge rr s = Ok s').
Proof.
  destruct (end_predecessor_defined (KadSearch 1 1 4 13 [] [(1, 5)] searching))
    as [Hsafe _].
  - simpl. lia.
  - destruct Hsafe as (_ & _ & Hlimit & Hmerge).
    + simpl. lia.
    + split; [exact Hlimit|exact Hmerge].
Defined.

(** ** Leaving the [searching] status *)

Lemma loop_head_stopped (s : kad_search) :
  m_cur_status s <> searching -> loop_head s = (s, Returned).
Proof.
  intros Hst. unfold loop_head, take_next.
  destruct (StdMap.begin (m_search_queue s)) as [[key e]|]; [|reflexivity].
  destruct (m_cur_status s); try reflexivity. congruence.
Qed.







(** ** The search queue is keyed by the raw identifier *)

Lemma take_next_is_begin (s : kad_search) (key : sha1) (e : endpoint)
    (q : StdMap.t endpoint) :
  m_cur_status s = searching ->
  m_search_queue s = (key, e) :: q ->
  take_next s = Some (distance key (m_target s), e, with_queue q s).
Proof.
  intros Hst Hq. unfold take_next. rewrite Hq, Hst. reflexivity.
Qed.

(** In an ordered queue the candidate taken is the one of least identifier. *)
Lemma take_next_least_identifier (s : kad_search) (key : sha1) (e : endpoint)
    (q : StdMap.t endpoint) :
  StdMap.ordered (m_search_queue s) ->
  m_search_queue s = (key, e) :: q ->
  Forall (fun c => key < fst c) q.
Proof.
  unfold StdMap.ordered. intros Hord Hq. rewrite Hq in Hord. simpl in Hord.
  apply StronglySorted_inv in Hord. destruct Hord as [_ Hall].
  rewrite Forall_map in Hall. exact Hall.
Qed.



(** ** [wait] *)

(** C6 (as amended).  With a finite [d], [wait] computes one time point,
    [now + d], on entry, and every join, in the order of [m_pending], is
    given that same time point. *)
Theorem wait_shares_one_deadline
    (microseconds_max d : microseconds) (now : time_point) (pending : nat)
    (Hfinite : d <> microseconds_max) :
  wait microseconds_max d now pending
    = map (fun i => WaitUntil i (now + d)) (seq 0 pending)
  /\ length (wait microseconds_max d now pending) = pending
  /\ forall k j,
       nth_error (wait microseconds_max d now pending) k = Some j ->
       j = WaitUntil k (now + d).
Proof.
  assert (Hw : wait microseconds_max d now pending
               = map (fun i => WaitUntil i (now + d)) (seq 0 pending)).
  { unfold wait. apply N.eqb_neq in Hfinite. rewrite Hfinite. reflexivity. }
  split; [exact Hw|]. rewrite Hw. split.
  - rewrite length_map, length_seq. reflexivity.
  - intros k j Hk.
    rewrite nth_error_map, nth_error_seq in Hk.
    destruct (Nat.ltb k pending); [|discriminate].
    simpl in Hk. injection Hk as <-. reflexivity.
Qed.

Lemma wait_shares_one_deadline_witness :
  wait (2 ^ 63 - 1) 10 100 2 = [WaitUntil 0 110; WaitUntil 1 110].
Proof.
  destruct (wait_shares_one_deadline (2 ^ 63 - 1) 10 100 2) as [Hw _].
  - discriminate.
  - exact Hw.
Defined.

(** C6, the claim as stated fails.  [wait] is entered at time 0 with
    [d = 10] and two workers; the first join returns at time 5, when the
    second is entered.  A deadline of its own would be 5 + 10 for the second
    join; it is given 10. *)
Lemma wait_deadline_counterexample :
  let entered := [0; 5] in
  ~ (forall k t,
       nth_error (wait (2 ^ 63 - 1) 10 0 2) k = Some (WaitUntil k t) ->
       t = nth k entered 0 + 10).
Proof.
  intros entered Hown.
  specialize (Hown 1%nat 10 eq_refl). discriminate Hown.
Qed.

(** * Further properties of the lookup *)


(** ** How a segment changes the search *)

(** Whatever the reply, a segment changes the search by at most one
    admission (followed, for the target, by the status [done]) or one merge,
    and then possibly by the removal of the next candidate at the loop
    test. *)
Lemma resume_shape (s s' : kad_search) (w w' : worker) (r : reply) :
  resume s w r = Ok (s', w') ->
  exists s1,
    (s1 = s
     \/ (exists rtn, w = Filtering rtn /\ r = Accepted
           /\ ((rtn <> m_target s /\ s1 = admit_rtn rtn s)
               \/ (rtn = m_target s /\ s1 = with_status done (admit_rtn rtn s))))
     \/ (exists rr, r = Neighbours rr /\ merge rr s = Ok s1))
    /\ (s' = s1 \/ s' = fst (loop_head s1)).
Proof.
  intros Hres.
  destruct w as [|e|rtn|rtn target n limit|]; destruct r as [|rtn'| |rr|];
    unfold resume, after_connect in Hres;
    try (injection Hres as <- _; exists s; split; [left; reflexivity|left; reflexivity]);
    try (injection Hres as Hs; exists s; split; [left; reflexivity|];
         right; rewrite Hs; reflexivity).
  - (* Filtering, Accepted *)
    unfold after_filter in Hres.
    replace (m_target (admit_rtn rtn s)) with (m_target s) in Hres by reflexivity.
    destruct (rtn =? m_target s) eqn:Heq.
    + apply N.eqb_eq in Heq. simpl in Hres. injection Hres as <- _.
      exists (with_status done (admit_rtn rtn s)).
      split; [|left; reflexivity].
      right; left. exists rtn. auto.
    + apply N.eqb_neq in Heq.
      exists (admit_rtn rtn s). split; [right; left; exists rtn; auto|].
      cbv beta iota zeta in Hres.
      destruct (status_eqb _ done); [left; congruence|].
      destruct (query_limit _); [|discriminate].
      simpl in Hres. left. congruence.
  - (* Querying, Neighbours *)
    unfold after_query in Hres.
    destruct (merge rr s) as [s1|] eqn:Hm; [|discriminate].
    simpl in Hres. injection Hres as Hs.
    exists s1. split; [right; right; exists rr; auto|].
    right. rewrite Hs. reflexivity.
Qed.

Section Preservation.
Variable P : kad_search -> Prop.
Hypothesis P_loop_head : forall s, P s -> P (fst (loop_head s)).
Hypothesis P_admit : forall s rtn, P s -> P (admit_rtn rtn s).
Hypothesis P_done : forall s, P s -> P (with_status done s).
Hypothesis P_offer : forall s rri s', offer rri s = Ok s' -> P s -> P s'.

Lemma merge_preserves (rr : list host) (s s' : kad_search) :
  merge rr s = Ok s' -> P s -> P s'.
Proof.
  revert s. induction rr as [|rri rr' IH]; simpl; intros s Hm HP.
  - injection Hm as <-. exact HP.
  - destruct (offer rri s) as [s1|] eqn:Hoffer; [|discriminate].
    simpl in Hm. apply (IH s1 Hm). eapply P_offer; eassumption.
Qed.

Lemma resume_preserves (s s' : kad_search) (w w' : worker) (r : reply) :
  resume s w r = Ok (s', w') -> P s -> P s'.
Proof.
  intros Hres HP.
  destruct (resume_shape s s' w w' r Hres) as (s1 & Hs1 & Hs').
  assert (HP1 : P s1).
  { destruct Hs1 as [->|[(rtn & _ & _ & [[_ ->]|[_ ->]])|(rr & _ & Hm)]]; auto.
    eapply merge_preserves; eassumption. }
  destruct Hs' as [->| ->]; auto.
Qed.

Lemma run_preserves (events : list (nat * reply)) (sys sys' : system) :
  run events sys = Ok sys' -> P (shared sys) -> P (shared sys').
Proof.
  revert sys. induction events as [|[i r] events' IH]; simpl; intros sys Hrun HP.
  - injection Hrun as <-. exact HP.
  - destruct (schedule sys i r) as [sys1|] eqn:Hsched; [|discriminate].
    simpl in Hrun. apply (IH sys1 Hrun).
    unfold schedule in Hsched.
    destruct (nth_error (m_pending sys) i) as [w|];
      [|injection Hsched as <-; exact HP].
    destruct (resume (shared sys) w r) as [[s1 w1]|] eqn:Hres; [|discriminate].
    simpl in Hsched. injection Hsched as <-. simpl.
    eapply resume_preserves; eassumption.
Qed.
End Preservation.

(** ** What no segment changes *)


Lemma loop_head_queue_cases (s : kad_search) :
  fst (loop_head s) = s
  \/ fst (loop_head s) = with_queue (StdMap.erase_begin (m_search_queue s)) s.
Proof.
  unfold loop_head, take_next.
  destruct (StdMap.begin (m_search_queue s)) as [[key e]|]; [|auto].
  destruct (status_eqb (m_cur_status s) searching); auto.
Qed.

(** X6.  A segment never touches the parameters of the search, and the only
    value it ever writes to the status is [done], which it writes only when
    the filter has accepted the target itself.  So a worker that returns
    because the queue ran empty leaves the status as it was, [done] is
    never left, and [idle] is never entered. *)
Theorem status_written_only_for_target
    (s s' : kad_search) (w w' : worker) (r : reply)
    (Hres : resume s w r = Ok (s', w')) :
  m_n s' = m_n s /\ m_p s' = m_p s
  /\ m_target s' = m_target s /\ m_target_dist s' = m_target_dist s
  /\ (m_cur_status s' = m_cur_status s
      \/ (m_cur_status s' = done /\ w = Filtering (m_target s) /\ r = Accepted)).
Proof.
  set (same := fun a b : kad_search =>
         m_n b = m_n a /\ m_p b = m_p a
         /\ m_target b = m_target a /\ m_target_dist b = m_target_dist a).
  assert (Hhead : forall a, same a (fst (loop_head a))
                            /\ m_cur_status (fst (loop_head a)) = m_cur_status a).
  { intros a. destruct (loop_head_queue_cases a) as [-> | ->];
      unfold same; simpl; auto 6. }
  assert (Hmerge : forall rr a b, merge rr a = Ok b ->
            same a b /\ m_cur_status b = m_cur_status a).
  { intros rr a b Hm.
    apply (merge_preserves
             (fun x => same a x /\ m_cur_status x = m_cur_status a)) with (2 := Hm).
    - intros x rri x' Hoffer Hx.
      destruct (offer_queue_cases rri x x' Hoffer) as [-> | ->]; [exact Hx|].
      unfold same in *. simpl. exact Hx.
    - unfold same. auto 6. }
  destruct (resume_shape s s' w w' r Hres) as (s1 & Hs1 & Hs').
  assert (H1 : same s s1
               /\ (m_cur_status s1 = m_cur_status s
                   \/ (m_cur_status s1 = done
                       /\ w = Filtering (m_target s) /\ r = Accepted))).
  { destruct Hs1 as [->|[(rtn & -> & -> & [[_ ->]|[-> ->]])|(rr & _ & Hm)]];
      unfold same; simpl; auto 8.
    destruct (Hmerge rr s s1 Hm) as [Hsame Hst]. unfold same in Hsame.
    tauto. }
  destruct H1 as [(Hn & Hp & Ht & Hd) Hstatus].
  destruct Hs' as [-> | ->]; [tauto|].
  destruct (Hhead s1) as [(Hn' & Hp' & Ht' & Hd') Hst'].
  rewrite Hn', Hp', Ht', Hd', Hst'. tauto.
Qed.

Lemma status_written_only_for_target_witness :
  exists s' w',
    resume (KadSearch 2 1 4 13 [] [(1, 5)] searching) (Filtering 4) Accepted
      = Ok (s', w')
    /\ m_target s' = 4
    /\ (m_cur_status s' = searching
        \/ (m_cur_status s' = done /\ Filtering 4 = Filtering 4 /\ Accepted = Accepted)).
Proof.
  eexists. eexists. split; [vm_compute; reflexivity|].
  destruct (status_written_only_for_target
              (KadSearch 2 1 4 13 [] [(1, 5)] searching) _ (Filtering 4) _ Accepted
              eq_refl) as (_ & _ & Ht & _ & Hst).
  split; [exact Ht|exact Hst].
Defined.

(** X7.  When [filter] throws for the resolved identifier, nothing is
    admitted and no remote query is made: the worker is back at the loop test
    with result set and status untouched, and takes the next candidate if the
    search is still on. *)
Theorem filter_rejection_skips_candidate (s : kad_search) (rtn : sha1) :
  exists s' w',
    resume s (Filtering rtn) Threw = Ok (s', w')
    /\ m_current_results s' = m_current_results s
    /\ m_cur_status s' = m_cur_status s
    /\ (forall q_id q_target q_n limit, w' <> Querying q_id q_target q_n limit)
    /\ (forall key e q,
          m_cur_status s = searching -> m_search_queue s = (key, e) :: q ->
          w' = Connecting e /\ m_search_queue s' = q)
    /\ (m_search_queue s = [] \/ m_cur_status s <> searching ->
        s' = s /\ w' = Returned).
Proof.
  exists (fst (loop_head s)), (snd (loop_head s)).
  destruct (loop_head_keeps s) as [Hr Hst].
  split; [simpl; unfold after_filter; rewrite <- surjective_pairing; reflexivity|].
  split; [exact Hr|]. split; [exact Hst|]. split; [|split].
  - intros q_id q_target q_n limit. unfold loop_head.
    destruct (take_next s) as [[[nid e] s1]|]; discriminate.
  - intros key e q Hs Hq. rewrite (loop_head_takes s key e q Hs Hq). auto.
  - intros [Hq|Hs].
    + unfold loop_head, take_next. rewrite Hq. auto.
    + rewrite (loop_head_stopped s Hs). auto.
Qed.

(** X8.  Merging a remote answer never removes a candidate and never touches
    the result set or the status; every entry of the queue afterwards was
    there before or is a pair of the answer. *)
Theorem merge_only_adds_offered
    (rr : list host) (s s' : kad_search)
    (Hmerge : merge rr s = Ok s') :
  m_current_results s' = m_current_results s
  /\ m_cur_status s' = m_cur_status s
  /\ (forall k, StdMap.find k (m_search_queue s) <> None ->
                StdMap.find k (m_search_queue s') <> None)
  /\ (forall k e, StdMap.find k (m_search_queue s') = Some e ->
                  StdMap.find k (m_search_queue s) = Some e \/ In (Host k e) rr).
Proof.
  revert s Hmerge. induction rr as [|rri rr' IH]; simpl; intros s Hm.
  - injection Hm as <-. auto.
  - destruct (offer rri s) as [s1|] eqn:Hoffer; [|discriminate].
    simpl in Hm. destruct (IH s1 Hm) as (Hr & Hst & Hkeep & Hnew).
    destruct (offer_keeps rri s s1 Hoffer) as (_ & _ & Hr1 & Hst1).
    split; [congruence|]. split; [congruence|].
    destruct (offer_queue_cases rri s s1 Hoffer) as [-> | ->].
    + split; [exact Hkeep|].
      intros k e Hf. destruct (Hnew k e Hf); auto.
    + simpl in Hkeep, Hnew. split.
      * intros k Hk. apply Hkeep.
        destruct (N.eq_dec k (id rri)) as [->|Hne].
        -- rewrite find_set_same. discriminate.
        -- rewrite find_set_other by exact Hne. exact Hk.
      * intros k e Hf. destruct (Hnew k e Hf) as [Hold|Hin]; [|auto].
        destruct (N.eq_dec k (id rri)) as [->|Hne].
        -- rewrite find_set_same in Hold. injection Hold as <-.
           right. left. destruct rri; reflexivity.
        -- rewrite find_set_other in Hold by exact Hne. auto.
Qed.

Lemma merge_only_adds_offered_witness :
  exists s',
    merge [Host 2 20] (KadSearch 2 1 4 13 [(6, 60)] [(1, 5)] searching) = Ok s'
    /\ StdMap.find 6 (m_search_queue s') <> None.
Proof.
  eexists. split; [vm_compute; reflexivity|].
  destruct (merge_only_adds_offered [Host 2 20]
              (KadSearch 2 1 4 13 [(6, 60)] [(1, 5)] searching) _ eq_refl)
    as (_ & _ & Hkeep & _).
  apply Hkeep. discriminate.
Defined.

(** ** Every state a search can reach *)

Lemma run_frame (events : list (nat * reply)) (sys sys' : system) :
  run events sys = Ok sys' ->
  m_n (shared sys') = m_n (shared sys)
  /\ m_target (shared sys') = m_target (shared sys).
Proof.
  intros Hrun.
  apply (run_preserves
           (fun x => m_n x = m_n (shared sys) /\ m_target x = m_target (shared sys)))
    with (5 := Hrun); auto.
  - intros s Hs. destruct (loop_head_queue_cases s) as [-> | ->]; exact Hs.
  - intros s rri s' Hoffer Hs.
    destruct (offer_queue_cases rri s s' Hoffer) as [-> | ->]; exact Hs.
Qed.

(** X1.  However the workers of a started search are scheduled and whatever
    the collaborators reply, the result set holds at most [m_n] entries, its
    keys ascend strictly, and every key is the distance of its identifier to
    the target. *)
Theorem reachable_result_set_invariant
    (nn : list host) (this : system) (events : list (nat * reply)) (sys' : system)
    (Hrun : run events (start nn this) = Ok sys') :
  let r := m_current_results (shared sys') in
  (StdMap.size r <= m_n (shared this))%nat
  /\ StronglySorted N.lt (map fst r)
  /\ Forall (fun e => fst e = distance (m_target (shared this)) (snd e)) r.
Proof.
  pose proof (run_invariant events (start nn this) sys' Hrun
                (start_invariant nn this)) as Hinv.
  destruct (run_frame events (start nn this) sys' Hrun) as [Hn Ht].
  unfold results_invariant in Hinv. rewrite Hn, Ht in Hinv. simpl in Hinv.
  destruct Hinv as [Hsz Hord Hkey]. auto.
Qed.

Lemma reachable_result_set_invariant_witness :
  exists sys',
    run [(0%nat, Run); (0%nat, Resolved 5); (0%nat, Accepted)]
        (start [Host 5 50] (new_search 9 4 1 1)) = Ok sys'
    /\ (StdMap.size (m_current_results (shared sys')) <= 1)%nat.
Proof.
  eexists. split; [vm_compute; reflexivity|].
  destruct (reachable_result_set_invariant [Host 5 50] (new_search 9 4 1 1)
              [(0%nat, Run); (0%nat, Resolved 5); (0%nat, Accepted)] _ eq_refl)
    as [Hsz _].
  exact Hsz.
Defined.

Lemma resume_defined (s : kad_search) (w : worker) (r : reply) :
  (1 <= m_n s)%nat -> exists s' w', resume s w r = Ok (s', w').
Proof.
  intros Hn.
  assert (Hpair : forall sw : kad_search * worker,
            exists s' w', Ok sw = Ok (s', w')).
  { intros [s' w']. eauto. }
  destruct w as [|e|rtn|rtn target n limit|]; destruct r as [|rtn'| |rr|];
    unfold resume; try apply Hpair.
  - unfold after_filter.
    destruct (status_eqb _ done); [apply Hpair|].
    destruct (query_limit_defined
                (if rtn =? m_target (admit_rtn rtn s)
                 then with_status done (admit_rtn rtn s)
                 else admit_rtn rtn s)) as [limit ->].
    apply Hpair.
  - unfold after_query.
    destruct (merge_defined rr s Hn) as (s1 & -> & _). apply Hpair.
Qed.

Lemma resume_keeps_count (s s' : kad_search) (w w' : worker) (r : reply) :
  resume s w r = Ok (s', w') -> m_n s' = m_n s.
Proof.
  intros Hres.
  apply (resume_preserves (fun x => m_n x = m_n s)) with (5 := Hres); auto.
  - intros x Hx. destruct (loop_head_queue_cases x) as [-> | ->]; exact Hx.
  - intros x rri x' Hoffer Hx.
    destruct (offer_queue_cases rri x x' Hoffer) as [-> | ->]; exact Hx.
Qed.

(** X2.  When at least one result is asked for, no schedule and no reply
    lead a started search to decrement [end()] of an empty map: every run is
    defined. *)
Theorem reachable_run_defined
    (nn : list host) (this : system) (events : list (nat * reply))
    (Hn : (1 <= m_n (shared this))%nat) :
  exists sys', run events (start nn this) = Ok sys'.
Proof.
  assert (Hgen : forall sys, (1 <= m_n (shared sys))%nat ->
            exists sys', run events sys = Ok sys').
  { induction events as [|[i r] events' IH]; intros sys Hsys; simpl; [eauto|].
    assert (Hstep : exists sys1, schedule sys i r = Ok sys1
                                 /\ (1 <= m_n (shared sys1))%nat).
    { unfold schedule.
      destruct (nth_error (m_pending sys) i) as [w|]; [|eauto].
      destruct (resume_defined (shared sys) w r Hsys) as (s1 & w1 & Hres).
      pose proof (resume_keeps_count _ _ _ _ _ Hres) as Hn1.
      rewrite Hres. simpl. eexists. split; [reflexivity|]. simpl. lia. }
    destruct Hstep as (sys1 & -> & Hsys1). simpl. apply IH, Hsys1. }
  apply Hgen. exact Hn.
Qed.

Lemma reachable_run_defined_witness :
  exists sys',
    run [(0%nat, Run); (0%nat, Resolved 5); (0%nat, Accepted);
         (0%nat, Neighbours [Host 0 70])]
        (start [Host 5 50] (new_search 9 4 1 1)) = Ok sys'.
Proof.
  apply (reachable_run_defined [Host 5 50] (new_search 9 4 1 1)).
  simpl. lia.
Defined.

(** ** [start] *)

Lemma seed_app (nn1 nn2 : list host) (q : StdMap.t endpoint) :
  seed (nn1 ++ nn2) q = seed nn2 (seed nn1 q).
Proof.
  revert q. induction nn1 as [|i nn1' IH]; simpl; intros q; [reflexivity|].
  apply IH.
Qed.

Lemma seed_find_other (nn : list host) (q : StdMap.t endpoint) (k : sha1) :
  (forall h, In h nn -> id h <> k) ->
  StdMap.find k (seed nn q) = StdMap.find k q.
Proof.
  revert q. induction nn as [|i nn' IH]; simpl; intros q Hother; [reflexivity|].
  rewrite IH by (intros h Hh; apply Hother; auto).
  apply find_set_other. intros Heq. apply (Hother i); auto.
Qed.

Lemma seed_ordered (nn : list host) (q : StdMap.t endpoint) :
  StdMap.ordered q -> StdMap.ordered (seed nn q).
Proof.
  revert q. induction nn as [|i nn' IH]; simpl; intros q Hq; [exact Hq|].
  apply IH, ordered_set, Hq.
Qed.

(** X9.  [start] empties the result set and sets the status to [searching],
    whatever the search was before.  It clears neither [m_pending] nor the
    search queue: the [m_p] new workers are appended to the futures already
    pending, each neighbour returned by [find_nodes_near] is queued under its
    identifier with the endpoint of its last occurrence in the answer, and
    an identifier the answer does not name keeps the entry it had. *)
Theorem start_seeds_queue (nn : list host) (this : system) :
  let sys := start nn this in
  m_current_results (shared sys) = []
  /\ m_cur_status (shared sys) = searching
  /\ m_pending sys = m_pending this ++ repeat Spawned (m_p (shared this))
  /\ length (m_pending sys)
     = (length (m_pending this) + m_p (shared this))%nat
  /\ (forall k w, nth_error (m_pending this) k = Some w ->
                  nth_error (m_pending sys) k = Some w)
  /\ (forall nn1 h nn2,
        nn = nn1 ++ h :: nn2 ->
        (forall h', In h' nn2 -> id h' <> id h) ->
        StdMap.find (id h) (m_search_queue (shared sys)) = Some (ep h))
  /\ (forall k,
        (forall h, In h nn -> id h <> k) ->
        StdMap.find k (m_search_queue (shared sys))
          = StdMap.find k (m_search_queue (shared this))).
Proof.
  simpl. split; [reflexivity|]. split; [reflexivity|].
  split; [reflexivity|].
  split; [rewrite length_app, repeat_length; reflexivity|].
  split.
  - intros k w Hk. rewrite nth_error_app1; [exact Hk|].
    apply nth_error_Some. congruence.
  - split.
    + intros nn1 h nn2 -> Hlast.
      rewrite seed_app. simpl.
      rewrite seed_find_other by exact Hlast.
      apply find_set_same.
    + intros k Hother. apply seed_find_other, Hother.
Qed.

(** ** The search queue *)

(** X10.  From a search whose queue is ordered (the empty queue of a new
    search is), every state the workers can reach has a queue whose
    identifiers ascend strictly: no identifier is queued twice, and the
    candidates are taken in ascending order of identifier. *)
Theorem reachable_queue_ordered
    (nn : list host) (this : system) (events : list (nat * reply)) (sys' : system)
    (Hordered : StdMap.ordered (m_search_queue (shared this)))
    (Hrun : run events (start nn this) = Ok sys') :
  StdMap.ordered (m_search_queue (shared sys'))
  /\ NoDup (map fst (m_search_queue (shared sys'))).
Proof.
  assert (Hord : StdMap.ordered (m_search_queue (shared sys'))).
  { apply (run_preserves (fun x => StdMap.ordered (m_search_queue x)))
      with (5 := Hrun); auto.
    - intros x Hx. destruct (loop_head_queue_cases x) as [-> | ->]; [exact Hx|].
      simpl. apply ordered_erase_begin, Hx.
    - intros x rri x' Hoffer Hx.
      destruct (offer_queue_cases rri x x' Hoffer) as [-> | ->]; [exact Hx|].
      simpl. apply ordered_set, Hx.
    - simpl. apply seed_ordered, Hordered. }
  split; [exact Hord|].
  unfold StdMap.ordered in Hord.
  induction Hord as [|k l Hl IH Hall]; constructor; [|exact IH].
  intros Hin. rewrite Forall_forall in Hall.
  specialize (Hall k Hin). apply N.lt_irrefl in Hall. exact Hall.
Qed.

Lemma reachable_queue_ordered_witness :
  exists sys',
    run [(0%nat, Run)] (start [Host 6 60; Host 1 10; Host 6 61] (new_search 9 4 2 1))
      = Ok sys'
    /\ NoDup (map fst (m_search_queue (shared sys'))).
Proof.
  eexists. split; [vm_compute; reflexivity|].
  destruct (reachable_queue_ordered [Host 6 60; Host 1 10; Host 6 61]
              (new_search 9 4 2 1) [(0%nat, Run)] _
              (SSorted_nil N.lt) eq_refl) as [_ Hnodup].
  exact Hnodup.
Defined.

(** ** Exhaustion *)

Lemma set_worker_middle (ws1 ws2 : list worker) (w0 w : worker) :
  set_worker (length ws1) w (ws1 ++ w0 :: ws2) = ws1 ++ w :: ws2.
Proof.
  induction ws1 as [|a ws1' IH]; simpl; [reflexivity|].
  rewrite IH. reflexivity.
Qed.

Lemma nth_error_middle (ws1 ws2 : list worker) (w0 : worker) :
  nth_error (ws1 ++ w0 :: ws2) (length ws1) = Some w0.
Proof. induction ws1 as [|a ws1' IH]; simpl; [reflexivity|exact IH]. Qed.

Lemma run_spawned_on_empty_queue (s : kad_search) (old : list worker) (b : nat) :
  m_search_queue s = [] ->
  run (map (fun i => (i, Run)) (seq (length old) b))
      (System s (old ++ repeat Spawned b))
    = Ok (System s (old ++ repeat Returned b)).
Proof.
  intros Hq. revert old. induction b as [|b' IH]; intros old; simpl; [reflexivity|].
  unfold schedule. simpl m_pending. simpl shared.
  rewrite (nth_error_middle old (repeat Spawned b') Spawned).
  assert (Hhead : loop_head s = (s, Returned)).
  { unfold loop_head, take_next. rewrite Hq. reflexivity. }
  simpl. rewrite Hhead. simpl.
  rewrite (set_worker_middle old (repeat Spawned b') Spawned Returned).
  replace (old ++ Returned :: repeat Spawned b')
    with ((old ++ [Returned]) ++ repeat Spawned b')
    by (rewrite <- app_assoc; reflexivity).
  replace (S (length old)) with (length (old ++ [Returned]))
    by (rewrite length_app; simpl; lia).
  rewrite IH, <- app_assoc. reflexivity.
Qed.

(** X12.  When [find_nodes_near] names no neighbour and the queue was empty,
    each of the [m_p] workers that [start] spawns returns the first time it
    runs, without a single call to a collaborator: the futures pending
    before are as they were, the result set is empty, and the status is
    still [searching], for nothing sets it to [done] on exhaustion. *)
Theorem empty_search_returns_at_once (this : system)
    (Hqueue : m_search_queue (shared this) = []) :
  exists s',
    run (map (fun i => (i, Run))
             (seq (length (m_pending this)) (m_p (shared this))))
        (start [] this)
      = Ok (System s' (m_pending this ++ repeat Returned (m_p (shared this))))
    /\ s' = shared (start [] this)
    /\ m_current_results s' = []
    /\ m_search_queue s' = []
    /\ m_cur_status s' = searching.
Proof.
  exists (shared (start [] this)).
  split; [|simpl; auto].
  unfold start. simpl seed. cbv zeta.
  apply (run_spawned_on_empty_queue _ (m_pending this) (m_p (shared this))).
  simpl. exact Hqueue.
Qed.

Lemma empty_search_returns_at_once_witness :
  exists s',
    run [(0%nat, Run); (1%nat, Run)] (start [] (new_search 9 4 2 2))
      = Ok (System s' [Returned; Returned])
    /\ m_cur_status s' = searching.
Proof.
  destruct (empty_search_returns_at_once (new_search 9 4 2 2) eq_refl)
    as (s' & Hrun & _ & _ & _ & Hst).
  exists s'. split; [exact Hrun|exact Hst].
Defined.

(** ** The result set holds the closest identifiers *)

Lemma distance_injective (target a b : sha1) :
  distance target a = distance target b -> a = b.
Proof.
  unfold distance. intros Heq.
  assert (Hxor : N.lxor target (N.lxor target a) = N.lxor target (N.lxor target b))
    by (rewrite Heq; reflexivity).
  rewrite <- !N.lxor_assoc, N.lxor_nilpotent, !N.lxor_0_l in Hxor. exact Hxor.
Qed.

Lemma in_set_distance (target rtn a : sha1) (r : StdMap.t sha1) :
  In (distance target a, a) r ->
  In (distance target a, a) (StdMap.set (distance target rtn) rtn r).
Proof.
  intros Hin.
  destruct (N.eq_dec (distance target a) (distance target rtn)) as [Heq|Hne].
  - rewrite (distance_injective target a rtn Heq). apply in_set_new.
  - apply in_set_old; [exact Hin|exact Hne].
Qed.

(** An entry of the set after an assignment, other than the last one, has a
    key below some key of the set before, or is an entry of the set before. *)
Lemma set_entry_below (k v bound : sha1) (r : StdMap.t sha1) (e : sha1 * sha1) :
  StdMap.ordered (StdMap.set k v r) ->
  Forall (fun x => fst x < bound) r ->
  In e (StdMap.erase_back (StdMap.set k v r)) ->
  fst e < bound.
Proof.
  intros Hord Hall Hin. rewrite Forall_forall in Hall.
  destruct (in_set_inv k v r e (in_erase_back _ e Hin)) as [->|Hold];
    [|apply Hall, Hold].
  destruct (StdMap.back (StdMap.set k v r)) as [b|] eqn:Hback.
  - pose proof (ordered_back_greatest _ b Hord Hback) as Hmax.
    rewrite Forall_forall in Hmax. specialize (Hmax _ Hin). simpl in Hmax.
    destruct (in_set_inv k v r b (in_back _ b Hback)) as [->|Hb].
    + simpl in Hmax. apply N.lt_irrefl in Hmax. contradiction.
    + simpl. eapply N.lt_trans; [exact Hmax|apply Hall, Hb].
  - apply back_none in Hback. rewrite Hback in Hin. contradiction.
Qed.

Lemma admit_keeps_closest (target : sha1) (n : nat) (r : StdMap.t sha1)
    (rtn a : sha1) :
  ResultSet.invariant target n r ->
  In (distance target a, a) r
  \/ (StdMap.size r = n /\ Forall (fun e => fst e < distance target a) r) ->
  let r' := admit_result target n rtn r in
  In (distance target a, a) r'
  \/ (StdMap.size r' = n /\ Forall (fun e => fst e < distance target a) r').
Proof.
  intros Hinv Hkept r'. unfold r', admit_result.
  set (m := StdMap.set (distance target rtn) rtn r).
  assert (Hord : StdMap.ordered m) by (apply ordered_set, Hinv).
  pose proof (size_set_bounds (distance target rtn) rtn r) as Hb. fold m in Hb.
  pose proof (ResultSet.inv_size _ _ _ Hinv) as Hsz.
  destruct (Nat.ltb n (StdMap.size m)) eqn:Hlt.
  - apply Nat.ltb_lt in Hlt.
    assert (Hsz' : StdMap.size (StdMap.erase_back m) = n)
      by (rewrite size_erase_back; lia).
    destruct Hkept as [Hin|[_ Hall]].
    + assert (Hpos : (0 < StdMap.size m)%nat) by lia.
      destruct (back_is_some m Hpos) as [b Hback].
      destruct (in_back_or_before m b _ Hback (in_set_distance target rtn a r Hin))
        as [Heq|Hbefore]; [right|left; exact Hbefore].
      split; [exact Hsz'|].
      pose proof (ordered_back_greatest m b Hord Hback) as Hmax.
      rewrite <- Heq in Hmax. exact Hmax.
    + right. split; [exact Hsz'|].
      apply Forall_forall. intros e He.
      apply (set_entry_below (distance target rtn) rtn _ r e Hord Hall He).
  - apply Nat.ltb_ge in Hlt.
    destruct Hkept as [Hin|[Hfull Hall]];
      [left; apply in_set_distance, Hin|right].
    split; [lia|].
    apply Forall_forall. intros e He. rewrite Forall_forall in Hall.
    destruct (in_set_inv _ _ _ e He) as [->|Hold]; [|apply Hall, Hold].
    destruct (size_set_cases (distance target rtn) rtn r) as [Hgrow|[_ [v' Hv']]].
    + fold m in Hgrow. lia.
    + apply (Hall _ Hv').
Qed.

Lemma admit_holds_new (target : sha1) (n : nat) (r : StdMap.t sha1) (rtn : sha1) :
  ResultSet.invariant target n r ->
  let r' := admit_result target n rtn r in
  In (distance target rtn, rtn) r'
  \/ (StdMap.size r' = n /\ Forall (fun e => fst e < distance target rtn) r').
Proof.
  intros Hinv r'. unfold r', admit_result.
  set (m := StdMap.set (distance target rtn) rtn r).
  assert (Hord : StdMap.ordered m) by (apply ordered_set, Hinv).
  pose proof (size_set_bounds (distance target rtn) rtn r) as Hb. fold m in Hb.
  pose proof (ResultSet.inv_size _ _ _ Hinv) as Hsz.
  pose proof (in_set_new (distance target rtn) rtn r) as Hnew. fold m in Hnew.
  destruct (Nat.ltb n (StdMap.size m)) eqn:Hlt; [|left; exact Hnew].
  apply Nat.ltb_lt in Hlt.
  assert (Hpos : (0 < StdMap.size m)%nat) by lia.
  destruct (back_is_some m Hpos) as [b Hback].
  destruct (in_back_or_before m b _ Hback Hnew) as [Heq|Hbefore];
    [right|left; exact Hbefore].
  split; [rewrite size_erase_back; lia|].
  pose proof (ordered_back_greatest m b Hord Hback) as Hmax.
  rewrite <- Heq in Hmax. exact Hmax.
Qed.

(** X3.  The result set always holds the closest of the identifiers admitted
    since [start]: each admitted identifier is either in the set, under its
    distance, or the set is full and every result is strictly closer to the
    target than it. *)
Theorem result_set_keeps_closest
    (target : sha1) (n : nat) (ids : list sha1) (a : sha1)
    (Hadmitted : In a ids) :
  let r := ResultSet.admit_all target n ids in
  In (distance target a, a) r
  \/ (StdMap.size r = n
      /\ Forall (fun e => distance target (snd e) < distance target a) r).
Proof.
  intros r.
  assert (Hkeys : In (distance target a, a) r
                  \/ (StdMap.size r = n
                      /\ Forall (fun e => fst e < distance target a) r)).
  { unfold r. clear r. revert a Hadmitted.
    induction ids as [|rtn ids' IH] using rev_ind; intros a Hin; [contradiction|].
    unfold ResultSet.admit_all. rewrite fold_left_app. simpl.
    fold (ResultSet.admit_all target n ids').
    pose proof (invariant_admit_all target n ids') as Hinv.
    apply in_app_or in Hin. destruct Hin as [Hin|[<-|[]]].
    - apply admit_keeps_closest; [exact Hinv|apply IH, Hin].
    - apply admit_holds_new, Hinv. }
  destruct Hkeys as [Hin|[Hfull Hall]]; [left; exact Hin|right].
  split; [exact Hfull|].
  pose proof (ResultSet.inv_keyed _ _ _ (invariant_admit_all target n ids)) as Hkey.
  fold r in Hkey. unfold ResultSet.keyed in Hkey.
  rewrite Forall_forall in *. intros e He.
  rewrite <- (Hkey e He). apply Hall, He.
Qed.

Lemma result_set_keeps_closest_witness :
  let r := ResultSet.admit_all 4 1 [7; 5] in
  In (distance 4 7, 7) r
  \/ (StdMap.size r = 1%nat
      /\ Forall (fun e => distance 4 (snd e) < distance 4 7) r).
Proof.
  apply (result_set_keeps_closest 4 1 [7; 5] 7). simpl. auto.
Defined.

(** X4.  Once the result set is full it stays full, and its worst distance,
    the limit handed to the remote nodes, never grows when a further
    identifier is admitted. *)
Theorem worst_distance_never_grows
    (target : sha1) (n : nat) (r : StdMap.t sha1) (rtn worst v : sha1)
    (Hinv : ResultSet.invariant target n r)
    (Hfull : StdMap.size r = n)
    (Hback : StdMap.back r = Some (worst, v)) :
  let r' := admit_result target n rtn r in
  StdMap.size r' = n
  /\ exists worst' v',
       StdMap.back r' = Some (worst', v') /\ worst' <= worst.
Proof.
  intros r'.
  set (m := StdMap.set (distance target rtn) rtn r).
  assert (Hord : StdMap.ordered m) by (apply ordered_set, Hinv).
  pose proof (size_set_bounds (distance target rtn) rtn r) as Hb. fold m in Hb.
  assert (Hpos : (0 < n)%nat).
  { rewrite <- Hfull. destruct r; [discriminate Hback|simpl; lia]. }
  assert (Hold : forall e, In e r -> fst e <= worst).
  { intros e He.
    apply (ordered_back_bound r (worst, v) e (ResultSet.inv_ordered _ _ _ Hinv)
             Hback He). }
  assert (Hsize : StdMap.size r' = n).
  { unfold r', admit_result. fold m.
    destruct (Nat.ltb n (StdMap.size m)) eqn:Hlt.
    - apply Nat.ltb_lt in Hlt. rewrite size_erase_back. lia.
    - apply Nat.ltb_ge in Hlt. lia. }
  split; [exact Hsize|].
  assert (Hpos' : (0 < StdMap.size r')%nat) by lia.
  destruct (back_is_some r' Hpos') as [[worst' v'] Hback'].
  exists worst', v'. split; [exact Hback'|].
  pose proof (in_back r' _ Hback') as Hin'.
  unfold r', admit_result in Hin'. fold m in Hin'.
  destruct (Nat.ltb n (StdMap.size m)) eqn:Hlt.
  - assert (Hall : Forall (fun x => fst x < N.succ worst) r).
    { apply Forall_forall. intros e He. apply N.lt_succ_r, Hold, He. }
    apply N.lt_succ_r.
    apply (set_entry_below (distance target rtn) rtn (N.succ worst) r
             (worst', v') Hord Hall Hin').
  - destruct (in_set_inv _ _ _ _ Hin') as [Heq|Hr]; [|apply (Hold _ Hr)].
    injection Heq as -> ->.
    destruct (size_set_cases (distance target rtn) rtn r) as [Hgrow|[_ [v0 Hv0]]].
    + apply Nat.ltb_ge in Hlt. fold m in Hgrow. lia.
    + apply (Hold _ Hv0).
Qed.

Lemma worst_distance_never_grows_witness :
  let r' := admit_result 4 2 6 [(1, 5); (3, 7)] in
  StdMap.size r' = 2%nat
  /\ exists worst' v', StdMap.back r' = Some (worst', v') /\ worst' <= 3.
Proof.
  apply (worst_distance_never_grows 4 2 [(1, 5); (3, 7)] 6 3 7).
  - split; simpl.
    + lia.
    + repeat constructor.
    + repeat constructor.
  - reflexivity.
  - reflexivity.
Defined.

(** X5.  No identifier occurs twice in the result set and no two results
    share a key, since distinct identifiers lie at distinct distances from
    the target. *)
Theorem result_identifiers_distinct (target : sha1) (n : nat) (ids : list sha1) :
  let r := ResultSet.admit_all target n ids in
  NoDup (map snd r)
  /\ NoDup (map fst r)
  /\ forall a b, distance target a = distance target b -> a = b.
Proof.
  intros r.
  destruct (invariant_admit_all target n ids) as [_ Hord Hkey]. fold r in Hord, Hkey.
  split; [|split; [|apply distance_injective]].
  - unfold StdMap.ordered in Hord. unfold ResultSet.keyed in Hkey.
    induction r as [|[k v] r' IH]; simpl; [constructor|].
    simpl in Hord. apply StronglySorted_inv in Hord. destruct Hord as [Hord Hall].
    inversion Hkey as [|x l Hk Hkey']; subst. simpl in Hk.
    constructor; [|apply IH; assumption].
    intros Hin. apply in_map_iff in Hin. destruct Hin as ([k' v'] & Hv & Hin).
    simpl in Hv. subst v'.
    rewrite Forall_forall in Hall, Hkey'.
    specialize (Hkey' _ Hin). simpl in Hkey'.
    assert (Hlt : k < k') by (apply Hall, in_map_iff; exists (k', v); auto).
    rewrite Hk, Hkey' in Hlt. apply N.lt_irrefl in Hlt. exact Hlt.
  - unfold StdMap.ordered in Hord.
    induction Hord as [|k l Hl IH Hall]; constructor; [|exact IH].
    intros Hin. rewrite Forall_forall in Hall.
    specialize (Hall k Hin). apply N.lt_irrefl in Hall. exact Hall.
Qed.

(** ** Taking the next candidate *)

(** X13.  The loop test lets a worker go on exactly when the queue is not
    empty and the status is [searching]; the worker then removes one entry
    of the queue and no other, the one of least identifier, connects to its
    endpoint, and leaves result set and status alone. *)
Theorem take_next_removes_least_identifier (s : kad_search)
    (Hordered : StdMap.ordered (m_search_queue s)) :
  (take_next s = None
     <-> (m_search_queue s = [] \/ m_cur_status s <> searching))
  /\ forall nid e s',
       take_next s = Some (nid, e, s') ->
       exists key,
         m_search_queue s = (key, e) :: m_search_queue s'
         /\ nid = distance key (m_target s)
         /\ Forall (fun c => key < fst c) (m_search_queue s')
         /\ loop_head s = (s', Connecting e)
         /\ m_current_results s' = m_current_results s
         /\ m_cur_status s' = searching.
Proof.
  unfold take_next. split.
  - destruct (m_search_queue s) as [|[key e] q]; simpl; [tauto|].
    destruct (m_cur_status s); simpl;
      (split;
       [intros H; try discriminate H; right; discriminate
       |intros [H|H]; try discriminate H; try reflexivity; congruence]).
  - intros nid e s' Htake.
    destruct (m_search_queue s) as [|[key e0] q] eqn:Hq; simpl in Htake;
      [discriminate|].
    destruct (status_eqb (m_cur_status s) searching) eqn:Hst; [|discriminate].
    injection Htake as <- <- <-.
    exists key. simpl.
    split; [reflexivity|]. split; [reflexivity|]. split.
    + apply (take_next_least_identifier s key e0 q);
        [rewrite Hq; exact Hordered|exact Hq].
    + split.
      * unfold loop_head, take_next. rewrite Hq. simpl. rewrite Hst. reflexivity.
      * split; [reflexivity|]. destruct (m_cur_status s); try discriminate.
        reflexivity.
Qed.

Lemma take_next_removes_least_identifier_witness :
  exists key,
    [(1, 10); (6, 60)] = (key, 10) :: [(6, 60)]
    /\ Forall (fun c => key < fst c) [(6, 60)].
Proof.
  destruct (take_next_removes_least_identifier
              (KadSearch 2 1 4 13 [(1, 10); (6, 60)] [] searching))
    as [_ Htake].
  - repeat constructor.
  - destruct (Htake _ _ _ eq_refl) as (key & Hq & _ & Hleast & _).
    exists key. split; [exact Hq|exact Hleast].
Defined.
